(** * Desk layout engine: a shallow embedding of [calculateDeskLayout]

    The TypeScript function [calculateDeskLayout] takes the list of people
    and returns them in seating order.  It has five numbered steps, which
    the development follows one by one:
    grouping by team (a JS [Map], iterated in insertion order), the in-place
    reordering of each team, the cascade of [filter] calls that sorts the
    teams into eight buckets, the index-driven [while] loop that builds the
    middle block, and the final run of [push] loops.

    JavaScript values are modelled as follows.
    - An array is a [list]; [a.length] is [length], [a.push(...b)] is [++].
    - [a[i]] is [nth_error a i], where [None] stands for [undefined].
      Reading a property of [undefined] and destructuring [undefined]
      raise a [TypeError], which aborts the whole call.
    - The [Map<string, Person[]>] is an association list in insertion
      order with one entry per key.
    - The [while] loop runs on fuel; running out of it is the third
      outcome [OutOfFuel], which is shown never to happen. *)

From Stdlib Require Import String List Arith Lia Bool Permutation.
From Equations Require Import Equations.
Import ListNotations.
Local Open Scope list_scope.

Set Implicit Arguments.

(* ------------------------------------------------------------------ *)
(** ** Data model *)

Inductive DogStatus : Type := AVOID | LIKE | HAVE.

Record TeamRef : Type := mkTeamRef {
  team_id : string;
  team_name : string
}.

(** Modelled from the spec: the type [Person] is [PeopleQuery['people'][0]],
    generated from the GraphQL schema, which is not part of the sources.
    The spec gives its shape: an identifier, a name, an optional team
    reference and a [dogStatus] that is one of the three enum values or is
    absent ([None]). *)
Record Person : Type := mkPerson {
  person_id : string;
  person_name : string;
  team : option TeamRef;
  dogStatus : option DogStatus
}.

(** An entry of [teamGroups.entries()]: the pair [[teamId, team]]. *)
Definition Team : Type := (string * list Person)%type.

Definition DogStatus_eqb (a b : DogStatus) : bool :=
  match a, b with
  | AVOID, AVOID | LIKE, LIKE | HAVE, HAVE => true
  | _, _ => false
  end.

(** [x === y] on two [dogStatus] values. *)
Definition status_eqb (a b : option DogStatus) : bool :=
  match a, b with
  | Some x, Some y => DogStatus_eqb x y
  | None, None => true
  | _, _ => false
  end.

(** The callback [(p) => p.dogStatus === s]. *)
Definition hasStatus (s : DogStatus) (p : Person) : bool :=
  status_eqb (dogStatus p) (Some s).

(** [person.team?.id ?? 'none'] *)
Definition teamKey (p : Person) : string :=
  match team p with
  | Some t => team_id t
  | None => "none"%string
  end.

(* ------------------------------------------------------------------ *)
(** ** Outcomes of a call *)

Inductive outcome (A : Type) : Type :=
| Ok (a : A)
| TypeError
| OutOfFuel.

Arguments Ok {A} a.
Arguments TypeError {A}.
Arguments OutOfFuel {A}.

Definition bind {A B : Type} (c : outcome A) (k : A -> outcome B) : outcome B :=
  match c with
  | Ok a => k a
  | TypeError => TypeError
  | OutOfFuel => OutOfFuel
  end.

Declare Scope outcome_scope.
Delimit Scope outcome_scope with outcome.
Notation "x <- c ;; k" := (bind c (fun x => k))
  (at level 100, c at next level, right associativity) : outcome_scope.
Local Open Scope outcome_scope.

(** [a.filter(f)] for a callback that may throw. *)
Fixpoint filterM {A : Type} (f : A -> outcome bool) (l : list A) : outcome (list A) :=
  match l with
  | [] => Ok []
  | x :: l' =>
      b <- f x ;;
      r <- filterM f l' ;;
      Ok (if b then x :: r else r)
  end.

(* ------------------------------------------------------------------ *)
(** ** Array primitives *)

(** [a.slice(start, end)] for indices that are not negative. *)
Definition slice {A : Type} (a : list A) (start end_ : nat) : list A :=
  firstn (end_ - start) (skipn start a).

(** [a.slice(start)] *)
Definition sliceFrom {A : Type} (a : list A) (start : nat) : list A :=
  skipn start a.

(** [team[0].dogStatus] *)
Definition firstDogStatus (t : list Person) : outcome (option DogStatus) :=
  match nth_error t 0 with
  | Some p => Ok (dogStatus p)
  | None => TypeError
  end.

(** [team[team.length - 1].dogStatus].  On the empty array the index is
    [-1] in JavaScript and [0] here; either way the element is [undefined]
    and the property access throws. *)
Definition lastDogStatus (t : list Person) : outcome (option DogStatus) :=
  match nth_error t (length t - 1) with
  | Some p => Ok (dogStatus p)
  | None => TypeError
  end.

(* ------------------------------------------------------------------ *)
(** ** Step 1: group people by team *)

Definition mapHas (k : string) (m : list Team) : bool :=
  existsb (fun e => String.eqb (fst e) k) m.

(** [teamGroups.set(teamId, [])] for a key that is not in the map. *)
Definition mapSetEmpty (k : string) (m : list Team) : list Team :=
  m ++ [(k, [])].

(** [teamGroups.get(teamId)!.push(person)] *)
Definition mapPush (k : string) (p : Person) (m : list Team) : list Team :=
  map (fun e => if String.eqb (fst e) k then (fst e, snd e ++ [p]) else e) m.

(** The body of the loop [for (const person of people)]. *)
Definition addPerson (m : list Team) (person : Person) : list Team :=
  let teamId := teamKey person in
  let m' := if mapHas teamId m then m else mapSetEmpty teamId m in
  mapPush teamId person m'.

Definition teamGroups (people : list Person) : list Team :=
  fold_left addPerson people [].

(* ------------------------------------------------------------------ *)
(** ** Step 2: order the members of each team *)

(** The loop [for (let i = 0; i < have.length; i++)].  [rest] is the part
    of [have] from index [i] on, so that its head is [have[i]]; the state
    is the pair of [team] and [likeIndex]. *)
Fixpoint alternate (likesPerGap extraLikes haveLength : nat) (like : list Person)
    (i : nat) (rest : list Person) (st : list Person * nat) : list Person * nat :=
  match rest with
  | [] => st
  | h :: rest' =>
      let team0 := fst st ++ [h] in
      let likeIndex := snd st in
      let st' :=
        if i <? haveLength - 1 then
          let likesToAdd := likesPerGap + (if i + 1 <? extraLikes then 1 else 0) in
          (team0 ++ slice like likeIndex (likeIndex + likesToAdd),
           likeIndex + likesToAdd)
        else (team0, likeIndex) in
      alternate likesPerGap extraLikes haveLength like (S i) rest' st'
  end.

(** The body of the loop [for (const team of teamGroups.values())]: the new
    contents of [team]. *)
Definition sortTeam (team0 : list Person) : list Person :=
  let avoid := filter (hasStatus AVOID) team0 in
  let have := filter (hasStatus HAVE) team0 in
  let like := filter (hasStatus LIKE) team0 in
  let team1 := [] ++ avoid in
  if 1 <? length have then
    let likesPerGap := length like / (length have + 1) in
    let extraLikes := length like mod (length have + 1) in
    let likeIndex := 0 in
    let initialLikes := likesPerGap + (if 0 <? extraLikes then 1 else 0) in
    let team2 := team1 ++ slice like likeIndex initialLikes in
    let likeIndex := likeIndex + initialLikes in
    let st := alternate likesPerGap extraLikes (length have) like 0 have
                (team2, likeIndex) in
    if snd st <? length like then fst st ++ sliceFrom like (snd st) else fst st
  else
    (team1 ++ like) ++ have.

Definition sortTeams (m : list Team) : list Team :=
  map (fun e => (fst e, sortTeam (snd e))) m.

(** [Array.from(teamGroups.entries())] after step 2. *)
Definition teams (people : list Person) : list Team :=
  sortTeams (teamGroups people).

(* ------------------------------------------------------------------ *)
(** ** Step 3: the eight categories *)

(** [team.some(AVOID) && team.some(HAVE)] *)
Definition hasAvoidAndHave (e : Team) : bool :=
  existsb (hasStatus AVOID) (snd e) && existsb (hasStatus HAVE) (snd e).

(** [team[team.length - 1].dogStatus === s] *)
Definition endsWith (s : DogStatus) (e : Team) : outcome bool :=
  last_ <- lastDogStatus (snd e) ;;
  Ok (status_eqb last_ (Some s)).

(** [team[0].dogStatus === s] *)
Definition startsWith (s : DogStatus) (e : Team) : outcome bool :=
  first_ <- firstDogStatus (snd e) ;;
  Ok (status_eqb first_ (Some s)).

(** The callback of [teamsSamePreferences]. *)
Definition samePreferences (e : Team) : outcome bool :=
  firstStatus <- firstDogStatus (snd e) ;;
  Ok (forallb (fun p => status_eqb (dogStatus p) firstStatus) (snd e)).

(** The callback of [teamsDifferentPreferences]. *)
Definition differentPreferences (e : Team) : outcome bool :=
  firstStatus <- firstDogStatus (snd e) ;;
  Ok (negb (forallb (fun p => status_eqb (dogStatus p) firstStatus) (snd e))).

(** [team.some(s) && !team.some(t) && team[team.length - 1].dogStatus === l];
    [&&] evaluates its right operand only when the left one is true. *)
Definition someNoneEnd (s t l : DogStatus) (e : Team) : outcome bool :=
  if existsb (hasStatus s) (snd e) then
    if negb (existsb (hasStatus t) (snd e)) then endsWith l e
    else Ok false
  else Ok false.

Record Buckets : Type := mkBuckets {
  teamsOnlyAvoid : list Team;
  teamsOnlyLike : list Team;
  teamsOnlyHave : list Team;
  teamsAvoidEndLike : list Team;
  teamsHaveEndLike : list Team;
  teamsHaveEndHave : list Team;
  teamsWithBothEndHave : list Team;
  teamsWithBothEndLike : list Team
}.

(** The filters of step 3, in the order in which the source evaluates them. *)
Definition categorize (teams0 : list Team) : outcome Buckets :=
  let teamsWithAvoidAndHave := filter hasAvoidAndHave teams0 in
  let remainingTeams := filter (fun e => negb (hasAvoidAndHave e)) teams0 in
  bothEndHave <- filterM (endsWith HAVE) teamsWithAvoidAndHave ;;
  bothEndLike <- filterM (endsWith LIKE) teamsWithAvoidAndHave ;;
  teamsSamePreferences <- filterM samePreferences remainingTeams ;;
  teamsDifferentPreferences <- filterM differentPreferences remainingTeams ;;
  onlyAvoid <- filterM (startsWith AVOID) teamsSamePreferences ;;
  onlyLike <- filterM (startsWith LIKE) teamsSamePreferences ;;
  onlyHave <- filterM (startsWith HAVE) teamsSamePreferences ;;
  avoidEndLike <- filterM (someNoneEnd AVOID HAVE LIKE) teamsDifferentPreferences ;;
  haveEndLike <- filterM (someNoneEnd HAVE AVOID LIKE) teamsDifferentPreferences ;;
  haveEndHave <- filterM (someNoneEnd HAVE AVOID HAVE) teamsDifferentPreferences ;;
  Ok {| teamsOnlyAvoid := onlyAvoid;
        teamsOnlyLike := onlyLike;
        teamsOnlyHave := onlyHave;
        teamsAvoidEndLike := avoidEndLike;
        teamsHaveEndLike := haveEndLike;
        teamsHaveEndHave := haveEndHave;
        teamsWithBothEndHave := bothEndHave;
        teamsWithBothEndLike := bothEndLike |}.

(* ------------------------------------------------------------------ *)
(** ** Step 4: the middle block *)

(** The variables of the [while] loop.  An element of [teamsInMiddle] is
    what an index expression gave, so it may be [undefined]. *)
Record MiddleState : Type := mkMiddleState {
  bothEndHaveIndex : nat;
  onlyLikeIndex : nat;
  haveEndLikeIndex : nat;
  teamsInMiddle : list (option Team)
}.

Section MiddleLoop.

Variables bothEndHave onlyLike haveEndLike : list Team.

Definition loopCond (s : MiddleState) : bool :=
  (bothEndHaveIndex s <? length bothEndHave)
  || (onlyLikeIndex s <? length onlyLike)
  || (haveEndLikeIndex s <? length haveEndLike).

(** The [if / else if] that adds a buffer team. *)
Definition addBuffer (s : MiddleState) : MiddleState :=
  if onlyLikeIndex s <? length onlyLike then
    {| bothEndHaveIndex := bothEndHaveIndex s;
       onlyLikeIndex := onlyLikeIndex s + 1;
       haveEndLikeIndex := haveEndLikeIndex s;
       teamsInMiddle := teamsInMiddle s ++ [nth_error onlyLike (onlyLikeIndex s)] |}
  else if haveEndLikeIndex s <? length haveEndLike then
    {| bothEndHaveIndex := bothEndHaveIndex s;
       onlyLikeIndex := onlyLikeIndex s;
       haveEndLikeIndex := haveEndLikeIndex s + 1;
       teamsInMiddle := teamsInMiddle s ++ [nth_error haveEndLike (haveEndLikeIndex s)] |}
  else s.

(** The [if] that adds the next team of [teamsWithBothEndHave]. *)
Definition addBothEndHave (s : MiddleState) : MiddleState :=
  if bothEndHaveIndex s <? length bothEndHave then
    {| bothEndHaveIndex := bothEndHaveIndex s + 1;
       onlyLikeIndex := onlyLikeIndex s;
       haveEndLikeIndex := haveEndLikeIndex s;
       teamsInMiddle := teamsInMiddle s ++ [nth_error bothEndHave (bothEndHaveIndex s)] |}
  else s.

Definition loopBody (s : MiddleState) : MiddleState :=
  addBothEndHave (addBuffer s).

(** The number of teams that the loop has not consumed yet. *)
Definition unconsumedTeams (s : MiddleState) : nat :=
  (length bothEndHave - bothEndHaveIndex s)
  + (length onlyLike - onlyLikeIndex s)
  + (length haveEndLike - haveEndLikeIndex s).

Fixpoint whileLoop (fuel : nat) (s : MiddleState) : outcome MiddleState :=
  if loopCond s then
    match fuel with
    | 0 => OutOfFuel
    | S fuel' => whileLoop fuel' (loopBody s)
    end
  else Ok s.

Definition buildTeamsInMiddle (fuel : nat) : outcome (list (option Team)) :=
  if 0 <? length bothEndHave then
    let s0 := {| bothEndHaveIndex := 1;
                 onlyLikeIndex := 0;
                 haveEndLikeIndex := 0;
                 teamsInMiddle := [] ++ [nth_error bothEndHave 0] |} in
    s <- whileLoop fuel s0 ;;
    Ok (teamsInMiddle s)
  else
    Ok (([] ++ map Some onlyLike) ++ map Some haveEndLike).

End MiddleLoop.

(* ------------------------------------------------------------------ *)
(** ** Step 5: the final sequence *)

(** [for (const [, team] of bucket) result.push(...team)] *)
Definition pushTeams (bucket : list Team) (result : list Person) : list Person :=
  fold_left (fun r e => r ++ snd e) bucket result.

(** The same loop over [teamsInMiddle]; destructuring [undefined] throws. *)
Fixpoint pushMiddle (bucket : list (option Team)) (result : list Person)
    : outcome (list Person) :=
  match bucket with
  | [] => Ok result
  | Some e :: bucket' => pushMiddle bucket' (result ++ snd e)
  | None :: _ => TypeError
  end.

Definition calculateDeskLayoutFuel (fuel : nat) (people : list Person)
    : outcome (list Person) :=
  if length people =? 0 then Ok []
  else
    b <- categorize (teams people) ;;
    middle <- buildTeamsInMiddle (teamsWithBothEndHave b) (teamsOnlyLike b)
                (teamsHaveEndLike b) fuel ;;
    let result := [] in
    let result := pushTeams (teamsOnlyAvoid b) result in
    let result := pushTeams (teamsAvoidEndLike b) result in
    let result := pushTeams (teamsWithBothEndLike b) result in
    result <- pushMiddle middle result ;;
    let result := pushTeams (teamsHaveEndHave b) result in
    let result := pushTeams (teamsOnlyHave b) result in
    Ok result.

(** Every iteration of the [while] loop consumes a team, and there are at
    most as many teams as people in each of the three buckets. *)
Definition calculateDeskLayout (people : list Person) : outcome (list Person) :=
  calculateDeskLayoutFuel (3 * length people) people.

(* ------------------------------------------------------------------ *)
(** ** Sample data *)

Definition teamA : TeamRef := mkTeamRef "a" "A Team".
Definition teamB : TeamRef := mkTeamRef "b" "B Team".

Definition person (i n : string) (t : option TeamRef) (s : option DogStatus) : Person :=
  mkPerson i n t s.

Definition alice := person "1" "Alice" (Some teamA) (Some LIKE).
Definition bob := person "2" "Bob" (Some teamA) (Some LIKE).
Definition charlie := person "3" "Charlie" (Some teamA) (Some AVOID).
Definition david := person "4" "David" (Some teamA) (Some HAVE).
Definition eve := person "5" "Eve" (Some teamA) (Some HAVE).

Definition frank := person "6" "Frank" (Some teamB) None.
Definition grace := person "7" "Grace" (Some teamA) None.
Definition heidi := person "8" "Heidi" (Some teamA) (Some LIKE).
Definition ivan := person "9" "Ivan" (Some teamA) (Some LIKE).
Definition judy := person "10" "Judy" (Some teamA) (Some LIKE).
Definition kim := person "11" "Kim" (Some teamB) (Some HAVE).
Definition leo := person "12" "Leo" None (Some LIKE).

(** A team with two HAVE members and five LIKE members. *)
Definition team_h2_l5 : list Person :=
  [alice; bob; heidi; ivan; judy; david; eve].

(* ------------------------------------------------------------------ *)
(** ** Notions used in the statements *)

(** The eight categories of section 4.3. *)
Inductive Category : Type :=
| OnlyAvoid | OnlyLike | OnlyHave
| AvoidEndLike | HaveEndLike | HaveEndHave
| BothEndHave | BothEndLike.

Definition Category_eqb (c d : Category) : bool :=
  match c, d with
  | OnlyAvoid, OnlyAvoid | OnlyLike, OnlyLike | OnlyHave, OnlyHave
  | AvoidEndLike, AvoidEndLike | HaveEndLike, HaveEndLike
  | HaveEndHave, HaveEndHave | BothEndHave, BothEndHave
  | BothEndLike, BothEndLike => true
  | _, _ => false
  end.

Definition bucket (b : Buckets) (c : Category) : list Team :=
  match c with
  | OnlyAvoid => teamsOnlyAvoid b
  | OnlyLike => teamsOnlyLike b
  | OnlyHave => teamsOnlyHave b
  | AvoidEndLike => teamsAvoidEndLike b
  | HaveEndLike => teamsHaveEndLike b
  | HaveEndHave => teamsHaveEndHave b
  | BothEndHave => teamsWithBothEndHave b
  | BothEndLike => teamsWithBothEndLike b
  end.

(** The eight categories, in the order in which step 5 emits them (the
    three of the middle block together). *)
Definition allCategories : list Category :=
  [OnlyAvoid; AvoidEndLike; BothEndLike; BothEndHave; OnlyLike; HaveEndLike;
   HaveEndHave; OnlyHave].

(** A person with one of the three recognised preferences. *)
Definition classified (p : Person) : bool :=
  match dogStatus p with
  | Some _ => true
  | None => false
  end.

Definition contains (s : DogStatus) (t : list Person) : bool :=
  existsb (hasStatus s) t.

Definition everyIs (s : DogStatus) (t : list Person) : bool :=
  forallb (hasStatus s) t.

Definition lastMember (t : list Person) : option Person :=
  nth_error t (length t - 1).

Definition lastIs (s : DogStatus) (t : list Person) : bool :=
  match lastMember t with
  | Some p => hasStatus s p
  | None => false
  end.

(** The table of section 4.3, read in the order of evaluation that the
    section gives: both AVOID and HAVE or not; then, all the same status or
    mixed.  A group without members has no category. *)
Definition categoryOf (t : list Person) : option Category :=
  match t with
  | [] => None
  | _ :: _ =>
      if contains AVOID t && contains HAVE t then
        if lastIs HAVE t then Some BothEndHave
        else if lastIs LIKE t then Some BothEndLike
        else None
      else if everyIs AVOID t then Some OnlyAvoid
      else if everyIs LIKE t then Some OnlyLike
      else if everyIs HAVE t then Some OnlyHave
      else if contains AVOID t && negb (contains HAVE t) && lastIs LIKE t
        then Some AvoidEndLike
      else if contains HAVE t && negb (contains AVOID t) && lastIs LIKE t
        then Some HaveEndLike
      else if contains HAVE t && negb (contains AVOID t) && lastIs HAVE t
        then Some HaveEndHave
      else None
  end.

Definition isCategory (c : Category) (e : Team) : bool :=
  match categoryOf (snd e) with
  | Some d => Category_eqb d c
  | None => false
  end.

(** The teams of one category, in the order of the grouper. *)
Definition teamsOf (c : Category) (ts : list Team) : list Team :=
  filter (isCategory c) ts.

Section MiddleSpec.

Variable A : Type.

(** The rounds of section 4.4, step 1: one buffer team (from [OnlyLike]
    if there is one left, else from [HaveEndLike]), then the next
    [BothEndHave] team, as long as any of the three has teams left. *)
Equations middleRounds (beh ol hel : list A) : list A
  by wf (length beh + length ol + length hel) lt :=
  middleRounds [] [] [] := [];
  middleRounds [] [] (h :: hel') := h :: middleRounds [] [] hel';
  middleRounds [] (o :: ol') hel := o :: middleRounds [] ol' hel;
  middleRounds (b :: beh') [] [] := b :: middleRounds beh' [] [];
  middleRounds (b :: beh') [] (h :: hel') := h :: b :: middleRounds beh' [] hel';
  middleRounds (b :: beh') (o :: ol') hel := o :: b :: middleRounds beh' ol' hel.
Next Obligation. simpl; lia. Qed.
Next Obligation. simpl; lia. Qed.

(** Section 4.4, steps 1 and 2. *)
Definition middleSpec (beh ol hel : list A) : list A :=
  match beh with
  | [] => ol ++ hel
  | b :: beh' => b :: middleRounds beh' ol hel
  end.

End MiddleSpec.

(** Section 4.4, step 3: the order of the teams in the final sequence. *)
Definition finalOrder (ts : list Team) : list Team :=
  teamsOf OnlyAvoid ts ++ teamsOf AvoidEndLike ts ++ teamsOf BothEndLike ts
  ++ middleSpec (teamsOf BothEndHave ts) (teamsOf OnlyLike ts) (teamsOf HaveEndLike ts)
  ++ teamsOf HaveEndHave ts ++ teamsOf OnlyHave ts.

Definition layoutOf (ts : list Team) : list Person :=
  concat (map snd (finalOrder ts)).

Definition firstIs (s : DogStatus) (t : list Person) : bool :=
  match nth_error t 0 with
  | Some p => hasStatus s p
  | None => false
  end.

Definition allSame (t : list Person) : bool :=
  match nth_error t 0 with
  | Some p => forallb (fun q => status_eqb (dogStatus q) (dogStatus p)) t
  | None => false
  end.

(** What the chain of filters that leads to a bucket accepts, for a team
    on which no callback throws. *)
Definition cascade (c : Category) (e : Team) : bool :=
  let t := snd e in
  match c with
  | BothEndHave => hasAvoidAndHave e && lastIs HAVE t
  | BothEndLike => hasAvoidAndHave e && lastIs LIKE t
  | OnlyAvoid => (negb (hasAvoidAndHave e) && allSame t) && firstIs AVOID t
  | OnlyLike => (negb (hasAvoidAndHave e) && allSame t) && firstIs LIKE t
  | OnlyHave => (negb (hasAvoidAndHave e) && allSame t) && firstIs HAVE t
  | AvoidEndLike =>
      (negb (hasAvoidAndHave e) && negb (allSame t))
      && (contains AVOID t && negb (contains HAVE t) && lastIs LIKE t)
  | HaveEndLike =>
      (negb (hasAvoidAndHave e) && negb (allSame t))
      && (contains HAVE t && negb (contains AVOID t) && lastIs LIKE t)
  | HaveEndHave =>
      (negb (hasAvoidAndHave e) && negb (allSame t))
      && (contains HAVE t && negb (contains AVOID t) && lastIs HAVE t)
  end.

(** The buckets as section 4.3 defines them. *)
Definition bucketsOf (ts : list Team) : Buckets :=
  {| teamsOnlyAvoid := teamsOf OnlyAvoid ts;
     teamsOnlyLike := teamsOf OnlyLike ts;
     teamsOnlyHave := teamsOf OnlyHave ts;
     teamsAvoidEndLike := teamsOf AvoidEndLike ts;
     teamsHaveEndLike := teamsOf HaveEndLike ts;
     teamsHaveEndHave := teamsOf HaveEndHave ts;
     teamsWithBothEndHave := teamsOf BothEndHave ts;
     teamsWithBothEndLike := teamsOf BothEndLike ts |}.

(** A team whose ordered form has no member left. *)
Definition isEmptyTeam (e : Team) : bool :=
  match snd e with
  | [] => true
  | _ :: _ => false
  end.

(** The keys of a sequence in the order of their first occurrence. *)
Fixpoint firstSeen (ks : list string) : list string :=
  match ks with
  | [] => []
  | k :: ks' => k :: filter (fun k' => negb (String.eqb k' k)) (firstSeen ks')
  end.

(** Section 4.1: one group per key, in the order of first occurrence, its
    members in input order. *)
Definition groupsSpec (people : list Person) : list Team :=
  map (fun k => (k, filter (fun p => String.eqb (teamKey p) k) people))
      (firstSeen (map teamKey people)).

(** No two elements with the same key are separated by an element with
    another key. *)
Definition contiguousBy {A K : Type} (key : A -> K) (l : list A) : Prop :=
  forall l1 a l2 b l3,
    l = l1 ++ a :: l2 ++ b :: l3 ->
    key a = key b ->
    forall c, In c l2 -> key c = key a.

(** The members before the first HAVE member. *)
Fixpoint beforeFirstHave (t : list Person) : list Person :=
  match t with
  | [] => []
  | p :: t' => if hasStatus HAVE p then [] else p :: beforeFirstHave t'
  end.

Definition likesBeforeFirstHave (t : list Person) : nat :=
  length (filter (hasStatus LIKE) (beforeFirstHave t)).

(** Some AVOID member sits next to some HAVE member. *)
Fixpoint avoidNextToHave (t : list Person) : bool :=
  match t with
  | p :: ((q :: _) as t') =>
      (hasStatus AVOID p && hasStatus HAVE q)
      || (hasStatus HAVE p && hasStatus AVOID q)
      || avoidNextToHave t'
  | _ => false
  end.


(* ------------------------------------------------------------------ *)
(** ** The teams page: the cache updates of its two mutations

    [TeamsPage] keeps the result of [TEAM_QUERY] in the Apollo cache and
    passes an [update] callback to each of its mutations.  A callback reads
    the cached list ([cache.readQuery(...)?.teams], [undefined] when the
    query is not cached), and either returns without writing or writes a new
    list with [cache.writeQuery].  The model of a callback is the function
    from what it reads to what it writes: [None] for the cached list is
    [undefined], [None] for the result is a return without a write. *)

Record Member : Type := mkMember {
  member_id : string;
  member_name : string
}.

(** Modelled from the spec: an element of [TEAM_QUERY]'s [teams] (the query
    is not part of the sources), with the fields that the component reads:
    [id], [name] and [members]. *)
Record TeamEntry : Type := mkTeamEntry {
  entry_id : string;
  entry_name : string;
  members : list Member
}.

(** The truth value of [variables?.id]: [undefined] and the empty string
    are falsy. *)
Definition truthyId (variablesId : option string) : bool :=
  match variablesId with
  | Some i => negb (String.eqb i "")
  | None => false
  end.

(** [team.id !== variables?.id] *)
Definition idDiffers (variablesId : option string) (t : TeamEntry) : bool :=
  match variablesId with
  | Some i => negb (String.eqb (entry_id t) i)
  | None => true
  end.

(** The [update] callback of [putTeam]; [data] is [data.putTeam] when the
    mutation has a result. *)
Definition putTeamUpdate (cached : option (list TeamEntry)) (data : option TeamEntry)
    (variablesId : option string) : option (list TeamEntry) :=
  match data, cached with
  | Some put, Some teams0 =>
      if truthyId variablesId then
        Some (map (fun t => if String.eqb (entry_id t) (entry_id put) then put else t)
                  teams0)
      else
        Some (teams0 ++ [put])
  | _, _ => None
  end.

(** The [update] callback of [deleteTeam]. *)
Definition deleteTeamUpdate {D : Type} (cached : option (list TeamEntry))
    (data : option D) (variablesId : option string) : option (list TeamEntry) :=
  match data, cached with
  | Some _, Some teams0 => Some (filter (idDiffers variablesId) teams0)
  | _, _ => None
  end.




Definition entryA : TeamEntry := mkTeamEntry "a" "A Team" [mkMember "1" "Alice"].
Definition entryB : TeamEntry := mkTeamEntry "b" "B Team" [].
Definition entryC : TeamEntry := mkTeamEntry "c" "C Team" [].

(* ------------------------------------------------------------------ *)
(** * Properties *)

(** ** The examples of the source's documentation *)

Example scenario1 :
  calculateDeskLayout [alice; bob; charlie; david; eve]
  = Ok [charlie; alice; david; bob; eve].
Proof. reflexivity. Qed.

Example scenario2 :
  calculateDeskLayout [alice; charlie; david; eve]
  = Ok [charlie; alice; david; eve].
Proof. reflexivity. Qed.

Example middleSpec_sample :
  middleSpec [1; 2; 3] [10] [20; 21; 22] = [1; 10; 2; 20; 3; 21; 22].
Proof. reflexivity. Qed.

(** ** Lists *)

Section ListFacts.

Variable A : Type.

Lemma filter_filter (f g : A -> bool) (l : list A) :
  filter f (filter g l) = filter (fun x => g x && f x) l.
Proof.
  induction l as [|x l IH]; simpl; [reflexivity|].
  destruct (g x); simpl; [destruct (f x)|]; now rewrite IH.
Qed.

Lemma filter_none (f : A -> bool) (l : list A) :
  (forall x, In x l -> f x = false) -> filter f l = [].
Proof.
  induction l as [|x l IH]; simpl; intros H; [reflexivity|].
  rewrite (H x (or_introl eq_refl)). apply IH. intros y Hy. apply H. now right.
Qed.

Lemma filter_all (f : A -> bool) (l : list A) :
  (forall x, In x l -> f x = true) -> filter f l = l.
Proof.
  induction l as [|x l IH]; simpl; intros H; [reflexivity|].
  rewrite (H x (or_introl eq_refl)). f_equal. apply IH. intros y Hy. apply H. now right.
Qed.

(** Two filters that never both accept split the filter of their union. *)
Lemma filter_disjoint_perm (f g : A -> bool) (l : list A) :
  (forall x, In x l -> f x && g x = false) ->
  Permutation (filter f l ++ filter g l) (filter (fun x => f x || g x) l).
Proof.
  induction l as [|x l IH]; simpl; intros H; [constructor|].
  assert (Hx := H x (or_introl eq_refl)).
  assert (IH' := IH (fun y Hy => H y (or_intror Hy))).
  destruct (f x), (g x); simpl in *; try discriminate.
  - now constructor.
  - rewrite <- Permutation_middle. now constructor.
  - exact IH'.
Qed.

Lemma slice_extend (l : list A) (i n : nat) :
  firstn i l ++ slice l i (i + n) = firstn (i + n) l.
Proof.
  unfold slice. replace (i + n - i) with n by lia.
  rewrite <- (firstn_skipn i l) at 3.
  rewrite firstn_app.
  destruct (le_lt_dec (length l) i) as [Hle|Hlt].
  - rewrite (firstn_all2 l) by lia. rewrite (firstn_all2 l) by lia.
    rewrite skipn_all2 by lia. now rewrite !firstn_nil.
  - rewrite length_firstn. rewrite Nat.min_l by lia.
    replace (i + n - i) with n by lia.
    f_equal. rewrite firstn_firstn. now rewrite Nat.min_r by lia.
Qed.

Lemma forallb_pointwise (f g : A -> bool) (l : list A) :
  (forall x, f x = g x) -> forallb f l = forallb g l.
Proof.
  intros H. induction l as [|x l IH]; simpl; [reflexivity|].
  now rewrite H, IH.
Qed.

Lemma In_firstn (l : list A) (n : nat) (x : A) :
  In x (firstn n l) -> In x l.
Proof.
  intros H. rewrite <- (firstn_skipn n l). apply in_or_app. now left.
Qed.

Lemma In_skipn (l : list A) (n : nat) (x : A) :
  In x (skipn n l) -> In x l.
Proof.
  intros H. rewrite <- (firstn_skipn n l). apply in_or_app. now right.
Qed.

Lemma nth_error_skipn_cons (l : list A) (i : nat) (x : A) :
  nth_error l i = Some x -> skipn i l = x :: skipn (S i) l.
Proof.
  revert i; induction l as [|y l IH]; intros [|i] H; simpl in *; try discriminate.
  - now inversion H.
  - now apply IH.
Qed.

Lemma nth_error_in_range (l : list A) (i : nat) :
  i < length l -> exists x, nth_error l i = Some x.
Proof.
  intros H. destruct (nth_error l i) eqn:E; [now eexists|].
  apply nth_error_None in E. lia.
Qed.

End ListFacts.

(** ** Step 1: the grouper *)

Lemma teamGroups_snoc (l : list Person) (p : Person) :
  teamGroups (l ++ [p]) = addPerson (teamGroups l) p.
Proof. unfold teamGroups. now rewrite fold_left_app. Qed.

Lemma firstSeen_In (ks : list string) (k : string) :
  In k (firstSeen ks) <-> In k ks.
Proof.
  induction ks as [|k0 ks IH]; simpl; [tauto|].
  rewrite filter_In, IH.
  destruct (String.eqb_spec k k0) as [->|Hne]; simpl.
  - tauto.
  - split; [tauto|]. intros [H|H]; [now left|now right].
Qed.

Lemma firstSeen_NoDup (ks : list string) : NoDup (firstSeen ks).
Proof.
  induction ks as [|k ks IH]; simpl; constructor.
  - rewrite filter_In. intros [_ H]. now rewrite String.eqb_refl in H.
  - now apply NoDup_filter.
Qed.

Lemma firstSeen_snoc (ks : list string) (k : string) :
  firstSeen (ks ++ [k]) =
  if existsb (String.eqb k) ks then firstSeen ks else firstSeen ks ++ [k].
Proof.
  induction ks as [|k0 ks IH]; simpl; [reflexivity|].
  rewrite IH.
  destruct (String.eqb_spec k k0) as [->|Hne]; simpl.
  - destruct (existsb (String.eqb k0) ks); [reflexivity|].
    rewrite filter_app. simpl. rewrite String.eqb_refl. simpl.
    now rewrite app_nil_r.
  - destruct (existsb (String.eqb k) ks); [reflexivity|].
    rewrite filter_app. simpl.
    destruct (String.eqb_spec k k0); [contradiction|]. reflexivity.
Qed.

Lemma existsb_eqb_In (ks : list string) (k : string) :
  existsb (String.eqb k) ks = true <-> In k ks.
Proof.
  rewrite existsb_exists. split.
  - intros (x & Hx & E). apply String.eqb_eq in E. now subst.
  - intros H. exists k. split; [assumption|apply String.eqb_refl].
Qed.

Lemma mapHas_groupsSpec (l : list Person) (k : string) :
  mapHas k (groupsSpec l) = existsb (String.eqb k) (map teamKey l).
Proof.
  apply eq_true_iff_eq. unfold mapHas, groupsSpec.
  rewrite existsb_eqb_In, existsb_exists. split.
  - intros (e & He & E). apply in_map_iff in He as (k' & <- & Hk').
    simpl in E. apply String.eqb_eq in E. subst. now apply firstSeen_In.
  - intros H. exists (k, filter (fun p => String.eqb (teamKey p) k) l). split.
    + apply in_map_iff. exists k. split; [reflexivity|now apply firstSeen_In].
    + simpl. apply String.eqb_refl.
Qed.

(** The [Map] built by the first loop is the grouping of section 4.1. *)
Lemma teamGroups_spec (people : list Person) :
  teamGroups people = groupsSpec people.
Proof.
  induction people as [|p l IH] using rev_ind; [reflexivity|].
  rewrite teamGroups_snoc, IH. unfold addPerson.
  rewrite mapHas_groupsSpec.
  unfold groupsSpec at 3. rewrite map_app. simpl map at 2.
  rewrite firstSeen_snoc.
  destruct (existsb (String.eqb (teamKey p)) (map teamKey l)) eqn:E.
  - unfold mapPush, groupsSpec. rewrite map_map. apply map_ext. intros k. simpl.
    rewrite filter_app. simpl. rewrite String.eqb_sym.
    destruct (String.eqb (teamKey p) k); [reflexivity|now rewrite app_nil_r].
  - unfold mapSetEmpty, mapPush. rewrite !map_app. simpl.
    rewrite String.eqb_refl. f_equal.
    + unfold groupsSpec. rewrite map_map. apply map_ext_in. intros k Hk. simpl.
      rewrite filter_app. simpl. rewrite String.eqb_sym.
      destruct (String.eqb_spec (teamKey p) k) as [<-|Hne].
      * apply firstSeen_In, existsb_eqb_In in Hk. congruence.
      * now rewrite app_nil_r.
    + rewrite filter_app. simpl. rewrite String.eqb_refl.
      rewrite (@filter_none _ _ l); [reflexivity|].
      intros x Hx. apply String.eqb_neq. intros Hk.
      assert (In (teamKey p) (map teamKey l))
        by (rewrite <- Hk; now apply in_map).
      apply existsb_eqb_In in H. congruence.
Qed.

Lemma teams_spec (people : list Person) :
  teams people =
  map (fun k => (k, sortTeam (filter (fun p => String.eqb (teamKey p) k) people)))
      (firstSeen (map teamKey people)).
Proof.
  unfold teams, sortTeams. rewrite teamGroups_spec. unfold groupsSpec.
  now rewrite map_map.
Qed.

Lemma teams_keys (people : list Person) :
  map fst (teams people) = firstSeen (map teamKey people).
Proof.
  rewrite teams_spec, map_map. simpl. apply map_id.
Qed.

Lemma teams_keys_NoDup (people : list Person) : NoDup (map fst (teams people)).
Proof. rewrite teams_keys. apply firstSeen_NoDup. Qed.

(** Section 4.1: the groups hold the people of the input, each once. *)
Lemma groupsSpec_perm_gen (l : list Person) (ks : list string) :
  NoDup ks ->
  (forall p, In p l -> In (teamKey p) ks) ->
  Permutation
    (concat (map (fun k => filter (fun p => String.eqb (teamKey p) k) l) ks)) l.
Proof.
  intros Hnd. induction l as [|p l IH]; intros Hin.
  - clear. induction ks; simpl; auto.
  - assert (Hk : In (teamKey p) ks) by (apply Hin; now left).
    assert (IH' := IH (fun q Hq => Hin q (or_intror Hq))).
    apply in_split in Hk as (ks1 & ks2 & E).
    rewrite E in Hnd. apply NoDup_remove_2 in Hnd.
    rewrite E in IH' |- *.
    rewrite map_app, concat_app in IH' |- *. simpl in IH' |- *.
    rewrite String.eqb_refl. simpl.
    rewrite <- Permutation_middle. constructor.
    etransitivity; [|exact IH'].
    assert (Hother : forall ks',
      ~ In (teamKey p) ks' ->
      map (fun k => if String.eqb (teamKey p) k
                    then p :: filter (fun q => String.eqb (teamKey q) k) l
                    else filter (fun q => String.eqb (teamKey q) k) l) ks'
      = map (fun k => filter (fun q => String.eqb (teamKey q) k) l) ks').
    { intros ks' Hn. apply map_ext_in. intros k Hk.
      destruct (String.eqb_spec (teamKey p) k); [subst; contradiction|reflexivity]. }
    rewrite !Hother; [reflexivity| |]; intros H; apply Hnd, in_or_app; tauto.
Qed.

Lemma teamGroups_perm (people : list Person) :
  Permutation (concat (map snd (teamGroups people))) people.
Proof.
  rewrite teamGroups_spec. unfold groupsSpec. rewrite map_map. simpl.
  apply groupsSpec_perm_gen; [apply firstSeen_NoDup|].
  intros p Hp. apply firstSeen_In. now apply in_map.
Qed.

Lemma teamGroups_length (people : list Person) :
  length (teamGroups people) <= length people.
Proof.
  rewrite <- (Permutation_length (teamGroups_perm people)).
  rewrite teamGroups_spec. unfold groupsSpec. rewrite map_map. simpl.
  assert (H : forall k, In k (firstSeen (map teamKey people)) ->
            1 <= length (filter (fun p => String.eqb (teamKey p) k) people)).
  { intros k Hk. apply firstSeen_In, in_map_iff in Hk as (p & <- & Hp).
    assert (Hin : In p (filter (fun q => String.eqb (teamKey q) (teamKey p)) people))
      by (apply filter_In; split; [assumption|apply String.eqb_refl]).
    destruct (filter _ people); [destruct Hin|simpl; lia]. }
  induction (firstSeen (map teamKey people)) as [|k ks IH]; simpl; [lia|].
  rewrite length_map in *. rewrite length_app.
  assert (H1 := H k (or_introl eq_refl)).
  assert (IH' := IH (fun k' Hk' => H k' (or_intror Hk'))). lia.
Qed.

(** ** Step 2: the intra-team orderer *)

Lemma slice_skipn (l : list Person) (i n : nat) :
  slice l i (i + n) ++ skipn (i + n) l = skipn i l.
Proof.
  unfold slice. replace (i + n - i) with n by lia.
  rewrite (Nat.add_comm i n), <- skipn_skipn. apply firstn_skipn.
Qed.

Lemma In_slice (l : list Person) (i j : nat) (p : Person) :
  In p (slice l i j) -> In p l.
Proof.
  unfold slice. intros H. eapply In_skipn, In_firstn, H.
Qed.

(** What the [for] loop leaves in [team] and [likeIndex]: the members of
    [have] and the LIKE members from the old to the new [likeIndex]. *)
Lemma alternate_perm q r hl (like : list Person) i rest st :
  Permutation
    (fst (alternate q r hl like i rest st)
       ++ skipn (snd (alternate q r hl like i rest st)) like)
    (fst st ++ rest ++ skipn (snd st) like).
Proof.
  revert i st. induction rest as [|h rest IH]; intros i [team0 idx]; simpl.
  - reflexivity.
  - rewrite IH. destruct (i <? hl - 1); simpl.
    + rewrite <- !app_assoc. apply Permutation_app_head. simpl. constructor.
      rewrite (Permutation_app_comm rest), app_assoc, slice_skipn.
      apply Permutation_app_comm.
    + rewrite <- !app_assoc. reflexivity.
Qed.

Lemma alternate_shape q r hl (like : list Person) i rest st :
  exists mid,
    fst (alternate q r hl like i rest st) = fst st ++ mid
    /\ (forall p, In p mid -> In p rest \/ In p like)
    /\ match rest with
       | [] => mid = []
       | h :: _ => exists mid', mid = h :: mid'
       end.
Proof.
  revert i st. induction rest as [|h rest IH]; intros i [team0 idx]; simpl.
  - exists []. rewrite app_nil_r. repeat split. intros p [].
  - match goal with |- context [alternate q r hl like (S i) rest ?s] =>
      destruct (IH (S i) s) as (mid & E & Hmid & _) end.
    rewrite E. destruct (i <? hl - 1); simpl.
    + eexists. rewrite <- !app_assoc. simpl. split; [reflexivity|]. split.
      * intros p [<-|Hp]; [left; now left|].
        apply in_app_or in Hp as [Hp|Hp].
        -- right. eapply In_slice; eassumption.
        -- destruct (Hmid p Hp); [left; now right|now right].
      * eexists; reflexivity.
    + eexists. rewrite <- !app_assoc. simpl. split; [reflexivity|]. split.
      * intros p [<-|Hp]; [left; now left|].
        destruct (Hmid p Hp); [left; now right|now right].
      * eexists; reflexivity.
Qed.

(** The final [if (likeIndex < like.length)] only skips an empty push. *)
Lemma push_remaining (t like : list Person) (idx : nat) :
  (if idx <? length like then t ++ sliceFrom like idx else t)
  = t ++ skipn idx like.
Proof.
  unfold sliceFrom. destruct (Nat.ltb_spec idx (length like)); [reflexivity|].
  rewrite skipn_all2 by lia. now rewrite app_nil_r.
Qed.

Lemma classified_split (t : list Person) :
  Permutation (filter classified t)
    (filter (hasStatus AVOID) t ++ filter (hasStatus LIKE) t
       ++ filter (hasStatus HAVE) t).
Proof.
  induction t as [|p t IH]; simpl; [constructor|].
  unfold classified, hasStatus in *.
  destruct (dogStatus p) as [[]|]; simpl; try assumption.
  - now constructor.
  - rewrite <- Permutation_middle. now constructor.
  - rewrite app_assoc, <- Permutation_middle, <- app_assoc. now constructor.
Qed.

(** The ordered team holds the classified members of the team, each once;
    the members without a recognised preference are gone. *)
Lemma sortTeam_perm (t : list Person) :
  Permutation (sortTeam t) (filter classified t).
Proof.
  rewrite classified_split. unfold sortTeam.
  destruct (1 <? length (filter (hasStatus HAVE) t)).
  - rewrite push_remaining, alternate_perm. simpl fst. simpl snd.
    unfold slice. rewrite Nat.sub_0_r. simpl skipn at 1.
    rewrite <- app_assoc. apply Permutation_app_head.
    rewrite (Permutation_app_comm (filter (hasStatus HAVE) t)).
    rewrite !app_assoc. apply Permutation_app_tail.
    now rewrite firstn_skipn.
  - simpl. now rewrite app_assoc.
Qed.

Lemma sortTeam_classified (t : list Person) (p : Person) :
  In p (sortTeam t) -> In p t /\ classified p = true.
Proof.
  intros H. apply (Permutation_in _ (sortTeam_perm t)) in H.
  now apply filter_In in H.
Qed.

Lemma sortTeam_nil_iff (t : list Person) :
  sortTeam t = [] <-> forall p, In p t -> classified p = false.
Proof.
  split.
  - intros E p Hp. destruct (classified p) eqn:C; [|reflexivity].
    assert (In p (sortTeam t)).
    { apply (Permutation_in _ (Permutation_sym (sortTeam_perm t))).
      apply filter_In. now split. }
    rewrite E in H. destruct H.
  - intros H. apply Permutation_nil. symmetry.
    rewrite sortTeam_perm. now rewrite filter_none.
Qed.

Lemma hasStatus_unique (s s' : DogStatus) (p : Person) :
  hasStatus s p = true -> hasStatus s' p = true -> s = s'.
Proof.
  unfold hasStatus. destruct (dogStatus p) as [[]|], s, s'; simpl; congruence.
Qed.

Lemma hasStatus_classified (s : DogStatus) (p : Person) :
  hasStatus s p = true -> classified p = true.
Proof.
  unfold hasStatus, classified. destruct (dogStatus p); [reflexivity|discriminate].
Qed.

Lemma classified_cases (p : Person) :
  classified p = true ->
  hasStatus AVOID p = true \/ hasStatus LIKE p = true \/ hasStatus HAVE p = true.
Proof.
  unfold hasStatus, classified.
  destruct (dogStatus p) as [[]|]; simpl; auto; discriminate.
Qed.

Lemma In_filter_status (s : DogStatus) (t : list Person) (p : Person) :
  In p (filter (hasStatus s) t) -> hasStatus s p = true.
Proof. intros H. now apply filter_In in H. Qed.

Lemma initialLikes_bounds (l h : nat) :
  let initialLikes := l / (h + 1) + (if 0 <? l mod (h + 1) then 1 else 0) in
  initialLikes <= l /\ (1 <= l -> 1 <= initialLikes).
Proof.
  simpl. assert (E := Nat.div_mod_eq l (h + 1)).
  destruct (Nat.ltb_spec 0 (l mod (h + 1))); nia.
Qed.

Lemma beforeFirstHave_app (xs ys : list Person) (h : Person) :
  (forall p, In p xs -> hasStatus HAVE p = false) ->
  hasStatus HAVE h = true ->
  beforeFirstHave (xs ++ h :: ys) = xs.
Proof.
  intros Hxs Hh. induction xs as [|x xs IH]; simpl.
  - now rewrite Hh.
  - rewrite (Hxs x (or_introl eq_refl)). f_equal.
    apply IH. intros p Hp. apply Hxs. now right.
Qed.

(** The ordered team starts with the AVOID members; what follows are LIKE
    and HAVE members, and the first of them is a LIKE member when the team
    has one. *)
Lemma sortTeam_shape (t : list Person) :
  exists rest,
    sortTeam t = filter (hasStatus AVOID) t ++ rest
    /\ (forall p, In p rest -> hasStatus LIKE p = true \/ hasStatus HAVE p = true)
    /\ (filter (hasStatus LIKE) t <> [] ->
        exists x rest', rest = x :: rest' /\ hasStatus LIKE x = true).
Proof.
  unfold sortTeam.
  set (avoid := filter (hasStatus AVOID) t).
  set (have := filter (hasStatus HAVE) t).
  set (like := filter (hasStatus LIKE) t).
  assert (Hlike : forall p, In p like -> hasStatus LIKE p = true)
    by (intros p; apply In_filter_status).
  assert (Hhave : forall p, In p have -> hasStatus HAVE p = true)
    by (intros p; apply In_filter_status).
  destruct (1 <? length have).
  - rewrite push_remaining.
    match goal with |- context [alternate ?q ?r ?hl like 0 have ?s] =>
      destruct (alternate_shape q r hl like 0 have s) as (mid & E & Hmid & _);
      generalize dependent (alternate q r hl like 0 have s) end.
    intros st E. rewrite E. simpl fst. unfold slice. rewrite Nat.sub_0_r.
    simpl skipn at 1.
    eexists. rewrite <- !app_assoc. simpl. split; [reflexivity|]. split.
    + intros p Hp. apply in_app_or in Hp as [Hp|Hp].
      * left. eapply Hlike, In_firstn, Hp.
      * apply in_app_or in Hp as [Hp|Hp].
        -- destruct (Hmid p Hp); auto.
        -- left. eapply Hlike, In_skipn, Hp.
    + intros Hne. destruct like as [|x like'] eqn:El; [congruence|].
      destruct (initialLikes_bounds (length (x :: like')) (length have)) as [_ H1].
      simpl in H1. specialize (H1 ltac:(lia)).
      simpl length.
      destruct (S (length like') / (length have + 1)
                + (if 0 <? S (length like') mod (length have + 1) then 1 else 0))
        as [|n]; [lia|].
      simpl. do 2 eexists. split; [reflexivity|]. apply Hlike. now left.
  - exists (like ++ have). simpl. rewrite <- app_assoc.
    split; [reflexivity|]. split.
    + intros p Hp. apply in_app_or in Hp as [Hp|Hp]; auto.
    + intros Hne. destruct like as [|x like']; [congruence|].
      simpl. do 2 eexists. split; [reflexivity|]. apply Hlike. now left.
Qed.

(** With more than one HAVE member, the members before the first HAVE
    member are the AVOID members and the initial LIKE buffer. *)
Lemma sortTeam_beforeFirstHave (t : list Person) :
  let have := filter (hasStatus HAVE) t in
  let like := filter (hasStatus LIKE) t in
  let initialLikes :=
    length like / (length have + 1)
    + (if 0 <? length like mod (length have + 1) then 1 else 0) in
  1 < length have ->
  beforeFirstHave (sortTeam t)
  = filter (hasStatus AVOID) t ++ firstn initialLikes like.
Proof.
  intros have like initialLikes Hh. unfold sortTeam. fold have like.
  destruct (Nat.ltb_spec 1 (length have)) as [_|]; [|lia].
  rewrite push_remaining.
  match goal with |- context [alternate ?q ?r ?hl like 0 have ?s] =>
    destruct (alternate_shape q r hl like 0 have s) as (mid & E & _ & Hhd);
    generalize dependent (alternate q r hl like 0 have s) end.
  intros st E. rewrite E. simpl fst.
  assert (Hh0 : forall p, In p have -> hasStatus HAVE p = true)
    by (intros p; apply In_filter_status).
  destruct have as [|h0 have']; [simpl in Hh; lia|].
  destruct Hhd as (mid' & ->).
  unfold slice. rewrite Nat.sub_0_r. simpl skipn at 1.
  rewrite <- app_assoc. simpl. fold initialLikes.
  apply beforeFirstHave_app; [|apply Hh0; now left].
  intros p Hp.
  destruct (hasStatus HAVE p) eqn:Hp'; [exfalso|reflexivity].
  apply in_app_or in Hp as [Hp|Hp].
  - apply In_filter_status in Hp.
    discriminate (hasStatus_unique _ _ _ Hp Hp').
  - assert (Hl : In p like) by (eapply In_firstn, Hp).
    apply In_filter_status in Hl.
    discriminate (hasStatus_unique _ _ _ Hl Hp').
Qed.

(** ** Step 3: the classifier *)

Lemma filterM_pure (A : Type) (f : A -> outcome bool) (g : A -> bool) (l : list A) :
  (forall x, In x l -> f x = Ok (g x)) ->
  filterM f l = Ok (filter g l).
Proof.
  induction l as [|x l IH]; simpl; intros H; [reflexivity|].
  rewrite (H x (or_introl eq_refl)). simpl.
  rewrite IH by (intros y Hy; apply H; now right). reflexivity.
Qed.

Lemma filterM_throws (A : Type) (f : A -> outcome bool) (l : list A) (x : A) :
  In x l -> f x = TypeError ->
  (forall y, In y l -> f y <> OutOfFuel) ->
  filterM f l = TypeError.
Proof.
  induction l as [|y l IH]; simpl; intros Hin Hx Hf; [destruct Hin|].
  destruct Hin as [->|Hin].
  - now rewrite Hx.
  - assert (Hy := Hf y (or_introl eq_refl)).
    destruct (f y); simpl; try congruence.
    rewrite IH; auto.
Qed.

Section Callbacks.

Variable e : Team.
Hypothesis nonempty : snd e <> [].

Lemma firstDogStatus_ok :
  exists p, nth_error (snd e) 0 = Some p /\ firstDogStatus (snd e) = Ok (dogStatus p).
Proof.
  unfold firstDogStatus. destruct (snd e) as [|p t]; [congruence|].
  exists p. now split.
Qed.

Lemma lastDogStatus_ok :
  exists p, lastMember (snd e) = Some p /\ lastDogStatus (snd e) = Ok (dogStatus p).
Proof.
  unfold lastDogStatus, lastMember.
  destruct (nth_error_in_range (snd e) (i := length (snd e) - 1)) as (p & E).
  - destruct (snd e); [congruence|simpl; lia].
  - exists p. rewrite E. now split.
Qed.

Lemma endsWith_ok (s : DogStatus) : endsWith s e = Ok (lastIs s (snd e)).
Proof.
  unfold endsWith, lastIs. destruct lastDogStatus_ok as (p & -> & ->).
  reflexivity.
Qed.

Lemma startsWith_ok (s : DogStatus) : startsWith s e = Ok (firstIs s (snd e)).
Proof.
  unfold startsWith, firstIs. destruct firstDogStatus_ok as (p & -> & ->).
  reflexivity.
Qed.

Lemma samePreferences_ok : samePreferences e = Ok (allSame (snd e)).
Proof.
  unfold samePreferences, allSame. destruct firstDogStatus_ok as (p & -> & ->).
  reflexivity.
Qed.

Lemma differentPreferences_ok :
  differentPreferences e = Ok (negb (allSame (snd e))).
Proof.
  unfold differentPreferences, allSame.
  destruct firstDogStatus_ok as (p & -> & ->). reflexivity.
Qed.

Lemma someNoneEnd_ok (s t l : DogStatus) :
  someNoneEnd s t l e
  = Ok (contains s (snd e) && negb (contains t (snd e)) && lastIs l (snd e)).
Proof.
  unfold someNoneEnd, contains. rewrite endsWith_ok.
  destruct (existsb (hasStatus s) (snd e)), (existsb (hasStatus t) (snd e));
    reflexivity.
Qed.

End Callbacks.

Section CategoryFacts.

Variables (t : list Person) (p0 : Person) (t0 : list Person).
Hypothesis t_cons : t = p0 :: t0.

Lemma everyIs_allSame (s : DogStatus) :
  everyIs s t = allSame t && firstIs s t.
Proof.
  unfold everyIs, allSame, firstIs. rewrite t_cons. simpl nth_error. cbv iota.
  destruct (hasStatus s p0) eqn:E.
  - rewrite andb_true_r. apply forallb_pointwise. intros q.
    unfold hasStatus in *. destruct (dogStatus p0) as [x|]; [|discriminate].
    simpl in E. destruct x, s; try discriminate; reflexivity.
  - rewrite andb_false_r. simpl. now rewrite E.
Qed.

Lemma lastIs_exclusive (s s' : DogStatus) :
  s <> s' -> lastIs s t && lastIs s' t = false.
Proof.
  intros Hne. unfold lastIs. destruct (lastMember t) as [q|]; [|reflexivity].
  destruct (hasStatus s q) eqn:E, (hasStatus s' q) eqn:E'; try reflexivity.
  destruct Hne. eapply hasStatus_unique; eassumption.
Qed.

Lemma firstIs_exclusive (s s' : DogStatus) :
  s <> s' -> firstIs s t && firstIs s' t = false.
Proof.
  intros Hne. unfold firstIs. rewrite t_cons. simpl.
  destruct (hasStatus s p0) eqn:E, (hasStatus s' p0) eqn:E'; try reflexivity.
  destruct Hne. eapply hasStatus_unique; eassumption.
Qed.

Lemma allSame_contains (s : DogStatus) :
  allSame t && contains s t && negb (firstIs s t) = false.
Proof.
  destruct (allSame t) eqn:Es; [|reflexivity].
  destruct (contains s t) eqn:Ec; [|reflexivity].
  simpl. apply negb_false_iff.
  unfold allSame, contains, firstIs in *. rewrite t_cons in *.
  simpl nth_error in *. cbv iota in *.
  apply existsb_exists in Ec as (q & Hq & Eq).
  rewrite forallb_forall in Es. specialize (Es q Hq).
  unfold hasStatus in *.
  destruct (dogStatus q) as [[]|], (dogStatus p0) as [[]|], s;
    simpl in *; congruence.
Qed.

(** On a team with a member, the chain of filters of the source accepts
    exactly the teams of the category. *)
Lemma cascade_category (k : string) (c : Category) :
  cascade c (k, t) = isCategory c (k, t).
Proof.
  assert (RA := everyIs_allSame AVOID).
  assert (RL := everyIs_allSame LIKE).
  assert (RH := everyIs_allSame HAVE).
  assert (L1 := @lastIs_exclusive LIKE HAVE ltac:(discriminate)).
  assert (F1 := @firstIs_exclusive AVOID LIKE ltac:(discriminate)).
  assert (F2 := @firstIs_exclusive AVOID HAVE ltac:(discriminate)).
  assert (F3 := @firstIs_exclusive LIKE HAVE ltac:(discriminate)).
  assert (SA := allSame_contains AVOID).
  assert (SH := allSame_contains HAVE).
  assert (M : forall X : option Category,
            match t with [] => None | _ :: _ => X end = X)
    by (rewrite t_cons; reflexivity).
  unfold cascade, isCategory, categoryOf, hasAvoidAndHave. cbn [snd].
  rewrite M, RA, RL, RH. clear RA RL RH M.
  change (existsb (hasStatus AVOID) t) with (contains AVOID t).
  change (existsb (hasStatus HAVE) t) with (contains HAVE t).
  destruct (contains AVOID t), (contains HAVE t), (allSame t),
    (firstIs AVOID t), (firstIs LIKE t), (firstIs HAVE t),
    (lastIs LIKE t), (lastIs HAVE t);
    simpl in *; try discriminate; destruct c; reflexivity.
Qed.

End CategoryFacts.

Lemma cascade_isCategory (c : Category) (e : Team) :
  snd e <> [] -> cascade c e = isCategory c e.
Proof.
  destruct e as [k [|p t]]; simpl; [congruence|]. intros _.
  now apply cascade_category with (p0 := p) (t0 := t).
Qed.

Lemma isEmptyTeam_false (e : Team) : isEmptyTeam e = false <-> snd e <> [].
Proof. unfold isEmptyTeam. destruct (snd e); split; congruence. Qed.

(** Rewrites the next throwing filter into the plain filter by [g]; its
    input is a chain of plain filters of [ts]. *)
Ltac pure_filter g lem :=
  rewrite (@filterM_pure _ _ g);
  [ cbn [bind]
  | let x := fresh "x" in
    let Hx := fresh "Hx" in
    intros x Hx;
    repeat (apply filter_In in Hx; destruct Hx as [Hx _]);
    apply lem; auto ].

(** When every team has a member, no filter throws and the buckets are
    those of section 4.3. *)
Lemma categorize_ok (ts : list Team) :
  (forall e, In e ts -> snd e <> []) ->
  categorize ts = Ok (bucketsOf ts).
Proof.
  intros Hne. unfold categorize.
  pure_filter (fun e : Team => lastIs HAVE (snd e)) endsWith_ok.
  pure_filter (fun e : Team => lastIs LIKE (snd e)) endsWith_ok.
  pure_filter (fun e : Team => allSame (snd e)) samePreferences_ok.
  pure_filter (fun e : Team => negb (allSame (snd e))) differentPreferences_ok.
  pure_filter (fun e : Team => firstIs AVOID (snd e)) startsWith_ok.
  pure_filter (fun e : Team => firstIs LIKE (snd e)) startsWith_ok.
  pure_filter (fun e : Team => firstIs HAVE (snd e)) startsWith_ok.
  pure_filter (fun e : Team => contains AVOID (snd e) && negb (contains HAVE (snd e))
                               && lastIs LIKE (snd e)) someNoneEnd_ok.
  pure_filter (fun e : Team => contains HAVE (snd e) && negb (contains AVOID (snd e))
                               && lastIs LIKE (snd e)) someNoneEnd_ok.
  pure_filter (fun e : Team => contains HAVE (snd e) && negb (contains AVOID (snd e))
                               && lastIs HAVE (snd e)) someNoneEnd_ok.
  unfold bucketsOf, teamsOf. rewrite !filter_filter.
  f_equal; f_equal; apply filter_ext_in; intros e He;
    rewrite <- cascade_isCategory by auto; unfold cascade; cbn [snd];
    now rewrite ?andb_assoc.
Qed.

(** A team without members makes [teamsSamePreferences] read a property of
    [undefined]. *)
Lemma categorize_throws (ts : list Team) (e : Team) :
  In e ts -> snd e = [] -> categorize ts = TypeError.
Proof.
  intros He Hnil. unfold categorize.
  assert (Hboth : forall x, In x (filter hasAvoidAndHave ts) -> snd x <> []).
  { intros x Hx. apply filter_In in Hx as [_ Hx]. unfold hasAvoidAndHave in Hx.
    destruct (snd x); [discriminate|congruence]. }
  rewrite (@filterM_pure _ _ (fun e : Team => lastIs HAVE (snd e)))
    by (intros; now apply endsWith_ok, Hboth).
  rewrite (@filterM_pure _ _ (fun e : Team => lastIs LIKE (snd e)))
    by (intros; now apply endsWith_ok, Hboth).
  cbn [bind].
  rewrite (@filterM_throws _ samePreferences _ e); [reflexivity| | |].
  - apply filter_In. split; [assumption|].
    unfold hasAvoidAndHave. now rewrite Hnil.
  - unfold samePreferences, firstDogStatus. now rewrite Hnil.
  - intros y _. unfold samePreferences, firstDogStatus.
    destruct (nth_error (snd y) 0); simpl; discriminate.
Qed.

Lemma categorize_spec (ts : list Team) :
  categorize ts = if existsb isEmptyTeam ts then TypeError else Ok (bucketsOf ts).
Proof.
  destruct (existsb isEmptyTeam ts) eqn:E.
  - apply existsb_exists in E as (e & He & Hnil).
    apply categorize_throws with e; [assumption|].
    unfold isEmptyTeam in Hnil. destruct (snd e); [reflexivity|discriminate].
  - apply categorize_ok. intros e He. apply isEmptyTeam_false.
    destruct (isEmptyTeam e) eqn:E'; [|reflexivity].
    assert (existsb isEmptyTeam ts = true)
      by (apply existsb_exists; now exists e).
    congruence.
Qed.

(** ** Step 4: the composer's loop *)

(** Decides the comparisons [i <? n] of the goal from the hypotheses. *)
Ltac decide_ltb :=
  repeat match goal with
  | H : ?i < ?n |- context [?i <? ?n] => rewrite (proj2 (Nat.ltb_lt i n) H)
  | H : ?n <= ?i |- context [?i <? ?n] => rewrite (proj2 (Nat.ltb_ge i n) H)
  end.

Section MiddleLoopFacts.

Variables bothEndHave onlyLike haveEndLike : list Team.

Local Notation "'cond'" := (loopCond bothEndHave onlyLike haveEndLike).
Local Notation "'body'" := (loopBody bothEndHave onlyLike haveEndLike).
Local Notation "'loop'" := (whileLoop bothEndHave onlyLike haveEndLike).
Local Notation "'unconsumed'" := (unconsumedTeams bothEndHave onlyLike haveEndLike).

Lemma loopCond_false (s : MiddleState) :
  cond s = false <->
  length bothEndHave <= bothEndHaveIndex s
  /\ length onlyLike <= onlyLikeIndex s
  /\ length haveEndLike <= haveEndLikeIndex s.
Proof.
  unfold loopCond. rewrite !orb_false_iff, !Nat.ltb_ge. tauto.
Qed.

Lemma loopBody_indices (s : MiddleState) :
  cond s = true ->
  bothEndHaveIndex s <= bothEndHaveIndex (body s)
  /\ onlyLikeIndex s <= onlyLikeIndex (body s)
  /\ haveEndLikeIndex s <= haveEndLikeIndex (body s)
  /\ (bothEndHaveIndex s < bothEndHaveIndex (body s)
      \/ onlyLikeIndex s < onlyLikeIndex (body s)
      \/ haveEndLikeIndex s < haveEndLikeIndex (body s))
  /\ unconsumed (body s) < unconsumed s.
Proof.
  unfold loopCond, loopBody, addBothEndHave, addBuffer, unconsumedTeams.
  intros H. rewrite !orb_true_iff, !Nat.ltb_lt in H.
  destruct (Nat.ltb_spec (onlyLikeIndex s) (length onlyLike));
    [|destruct (Nat.ltb_spec (haveEndLikeIndex s) (length haveEndLike))];
    cbn [bothEndHaveIndex onlyLikeIndex haveEndLikeIndex];
    destruct (Nat.ltb_spec (bothEndHaveIndex s) (length bothEndHave));
    cbn [bothEndHaveIndex onlyLikeIndex haveEndLikeIndex]; lia.
Qed.

Lemma skipn_cases (l : list Team) (i : nat) :
  (i < length l
   /\ exists x, nth_error l i = Some x /\ skipn i l = x :: skipn (i + 1) l)
  \/ (length l <= i /\ skipn i l = []).
Proof.
  destruct (le_lt_dec (length l) i) as [Hle|Hlt].
  - right. split; [assumption|now apply skipn_all2].
  - left. split; [assumption|].
    destruct (nth_error_in_range l Hlt) as (x & E). exists x. split; [assumption|].
    rewrite Nat.add_1_r. now apply nth_error_skipn_cons.
Qed.

(** With fuel for the unconsumed teams the loop ends, and it has appended
    the rounds of section 4.4 over the unconsumed teams. *)
Lemma whileLoop_rounds (fuel : nat) (s : MiddleState) :
  unconsumed s <= fuel ->
  exists s',
    loop fuel s = Ok s'
    /\ cond s' = false
    /\ teamsInMiddle s' =
       teamsInMiddle s
       ++ map Some (middleRounds (skipn (bothEndHaveIndex s) bothEndHave)
                                 (skipn (onlyLikeIndex s) onlyLike)
                                 (skipn (haveEndLikeIndex s) haveEndLike)).
Proof.
  revert s. induction fuel as [|fuel IH]; intros s Hfuel.
  - assert (Hc : cond s = false).
    { destruct (cond s) eqn:E; [|reflexivity].
      apply loopBody_indices in E. lia. }
    exists s. split; [simpl; now rewrite Hc|]. split; [assumption|].
    apply loopCond_false in Hc as (Hb & Ho & Hh).
    rewrite !skipn_all2 by assumption. simp middleRounds.
    now rewrite app_nil_r.
  - simpl. destruct (cond s) eqn:Hc.
    + assert (Hstep := loopBody_indices s Hc).
      destruct (IH (body s)) as (s' & E & Hc' & Hmid); [lia|].
      exists s'. split; [assumption|]. split; [assumption|].
      rewrite Hmid. clear Hstep Hmid E IH Hfuel.
      unfold loopCond in Hc. rewrite !orb_true_iff, !Nat.ltb_lt in Hc.
      unfold loopBody, addBothEndHave, addBuffer.
      destruct (skipn_cases onlyLike (onlyLikeIndex s))
        as [(Ho & o & Eo & So)|(Ho & So)];
      [|destruct (skipn_cases haveEndLike (haveEndLikeIndex s))
          as [(Hh & h & Eh & Sh)|(Hh & Sh)]];
      destruct (skipn_cases bothEndHave (bothEndHaveIndex s))
        as [(Hb & b & Eb & Sb)|(Hb & Sb)];
      try lia;
      decide_ltb;
      cbn [bothEndHaveIndex onlyLikeIndex haveEndLikeIndex teamsInMiddle];
      decide_ltb;
      cbn [bothEndHaveIndex onlyLikeIndex haveEndLikeIndex teamsInMiddle];
      rewrite ?Eo, ?Eh, ?Eb, ?So, ?Sh, ?Sb; simp middleRounds;
      rewrite <- ?app_assoc; reflexivity.
    + exists s. split; [reflexivity|]. split; [assumption|].
      apply loopCond_false in Hc as (Hb & Ho & Hh).
      rewrite !skipn_all2 by assumption. simp middleRounds.
      now rewrite app_nil_r.
Qed.

(** Step 4 builds the middle block of section 4.4; no index expression
    gives [undefined]. *)
Lemma buildTeamsInMiddle_spec (fuel : nat) :
  length bothEndHave + length onlyLike + length haveEndLike <= fuel ->
  buildTeamsInMiddle bothEndHave onlyLike haveEndLike fuel
  = Ok (map Some (middleSpec bothEndHave onlyLike haveEndLike)).
Proof.
  intros Hfuel. unfold buildTeamsInMiddle, middleSpec.
  destruct bothEndHave as [|b beh'] eqn:E.
  - simpl. now rewrite map_app.
  - rewrite <- E in *.
    replace (0 <? length bothEndHave) with true
      by (symmetry; apply Nat.ltb_lt; rewrite E; simpl; lia).
    match goal with |- context [loop fuel ?s0] =>
      destruct (@whileLoop_rounds fuel s0) as (s' & El & _ & Hmid) end.
    + unfold unconsumedTeams. simpl. lia.
    + rewrite El. cbn [bind]. rewrite Hmid. simpl.
      rewrite E. reflexivity.
Qed.

End MiddleLoopFacts.

(** ** Step 5 and the whole function *)

Lemma pushTeams_concat (bucket0 : list Team) (result : list Person) :
  pushTeams bucket0 result = result ++ concat (map snd bucket0).
Proof.
  unfold pushTeams. revert result.
  induction bucket0 as [|e l IH]; intros result; simpl.
  - now rewrite app_nil_r.
  - now rewrite IH, app_assoc.
Qed.

Lemma pushMiddle_concat (middle : list Team) (result : list Person) :
  pushMiddle (map Some middle) result = Ok (result ++ concat (map snd middle)).
Proof.
  revert result. induction middle as [|e l IH]; intros result; simpl.
  - now rewrite app_nil_r.
  - now rewrite IH, app_assoc.
Qed.

Lemma teams_length (people : list Person) :
  length (teams people) <= length people.
Proof.
  unfold teams, sortTeams. rewrite length_map. apply teamGroups_length.
Qed.

Lemma teamsOf_length (c : Category) (ts : list Team) :
  length (teamsOf c ts) <= length ts.
Proof. apply filter_length_le. Qed.

(** The whole function: it throws when some team has no classified member,
    and otherwise returns the sequence of sections 4.3 and 4.4. *)
Lemma calculateDeskLayoutFuel_spec (fuel : nat) (people : list Person) :
  3 * length people <= fuel ->
  calculateDeskLayoutFuel fuel people =
  if existsb isEmptyTeam (teams people) then TypeError
  else Ok (layoutOf (teams people)).
Proof.
  intros Hfuel. unfold calculateDeskLayoutFuel.
  destruct people as [|p people']; [reflexivity|].
  set (people := p :: people') in *.
  replace (length people =? 0) with false by reflexivity.
  rewrite categorize_spec.
  destruct (existsb isEmptyTeam (teams people)); [reflexivity|].
  cbn [bind bucketsOf teamsWithBothEndHave teamsOnlyLike teamsHaveEndLike
       teamsOnlyAvoid teamsAvoidEndLike teamsWithBothEndLike teamsHaveEndHave
       teamsOnlyHave].
  rewrite buildTeamsInMiddle_spec.
  - cbn [bind]. rewrite !pushTeams_concat, pushMiddle_concat. cbn [bind].
    rewrite !pushTeams_concat. unfold layoutOf, finalOrder.
    rewrite !map_app, !concat_app, <- !app_assoc. reflexivity.
  - assert (H := teams_length people).
    assert (H1 := teamsOf_length BothEndHave (teams people)).
    assert (H2 := teamsOf_length OnlyLike (teams people)).
    assert (H3 := teamsOf_length HaveEndLike (teams people)).
    lia.
Qed.

Lemma calculateDeskLayout_spec (people : list Person) :
  calculateDeskLayout people =
  if existsb isEmptyTeam (teams people) then TypeError
  else Ok (layoutOf (teams people)).
Proof. apply calculateDeskLayoutFuel_spec. lia. Qed.

Lemma calculateDeskLayout_Ok (people out : list Person) :
  calculateDeskLayout people = Ok out ->
  existsb isEmptyTeam (teams people) = false /\ out = layoutOf (teams people).
Proof.
  rewrite calculateDeskLayout_spec.
  destruct (existsb isEmptyTeam (teams people)); [discriminate|].
  intros H. inversion H. now split.
Qed.

(** ** The final order holds every categorised team once *)

Lemma middleRounds_perm (A : Type) (beh ol hel : list A) :
  Permutation (middleRounds beh ol hel) (beh ++ ol ++ hel).
Proof.
  funelim (middleRounds beh ol hel); simp middleRounds; simpl in *.
  - constructor.
  - now constructor.
  - now constructor.
  - constructor. now rewrite app_nil_r in *.
  - rewrite H. rewrite perm_swap. constructor. apply Permutation_middle.
  - rewrite H. rewrite perm_swap. constructor. apply Permutation_middle.
Qed.

Lemma middleSpec_perm (A : Type) (beh ol hel : list A) :
  Permutation (middleSpec beh ol hel) (beh ++ ol ++ hel).
Proof.
  unfold middleSpec. destruct beh; simpl; [reflexivity|].
  constructor. apply middleRounds_perm.
Qed.

Lemma Category_eqb_eq (c d : Category) : Category_eqb c d = true <-> c = d.
Proof. destruct c, d; simpl; split; congruence. Qed.

Lemma isCategory_unique (c d : Category) (e : Team) :
  isCategory c e = true -> isCategory d e = true -> c = d.
Proof.
  unfold isCategory. destruct (categoryOf (snd e)); [|discriminate].
  rewrite !Category_eqb_eq. congruence.
Qed.

Lemma teamsOf_flat_map (cs : list Category) (ts : list Team) :
  NoDup cs ->
  Permutation (flat_map (fun c => teamsOf c ts) cs)
              (filter (fun e => existsb (fun c => isCategory c e) cs) ts).
Proof.
  induction 1 as [|c cs Hc Hnd IH]; simpl.
  - now rewrite filter_none.
  - rewrite IH. unfold teamsOf. apply filter_disjoint_perm.
    intros e _. destruct (isCategory c e) eqn:E; [simpl|reflexivity].
    destruct (existsb (fun c0 => isCategory c0 e) cs) eqn:E'; [|reflexivity].
    apply existsb_exists in E' as (d & Hd & E').
    rewrite (isCategory_unique _ _ _ E E') in Hc. contradiction.
Qed.

(** The teams that have a category. *)
Lemma finalOrder_perm (ts : list Team) :
  Permutation (finalOrder ts)
    (filter (fun e => existsb (fun c => isCategory c e) allCategories) ts).
Proof.
  rewrite <- teamsOf_flat_map.
  - unfold finalOrder, allCategories. rewrite middleSpec_perm. simpl.
    now rewrite app_nil_r, <- !app_assoc.
  - repeat constructor; simpl; intuition discriminate.
Qed.

Lemma NoDup_map_filter (A B : Type) (key : A -> B) (f : A -> bool) (l : list A) :
  NoDup (map key l) -> NoDup (map key (filter f l)).
Proof.
  induction l as [|x l IH]; simpl; intros H; [constructor|].
  inversion H as [|? ? Hx Hl]; subst.
  destruct (f x); simpl; [constructor|]; auto.
  intros Hin. apply Hx. apply in_map_iff in Hin as (y & E & Hy).
  apply in_map_iff. exists y. split; [assumption|]. now apply filter_In in Hy.
Qed.

Lemma finalOrder_keys_NoDup (ts : list Team) :
  NoDup (map fst ts) -> NoDup (map fst (finalOrder ts)).
Proof.
  intros H.
  eapply Permutation_NoDup.
  - symmetry. apply Permutation_map, finalOrder_perm.
  - now apply NoDup_map_filter.
Qed.

Lemma finalOrder_incl (ts : list Team) (e : Team) :
  In e (finalOrder ts) -> In e ts.
Proof.
  intros H. apply (Permutation_in _ (finalOrder_perm ts)) in H.
  now apply filter_In in H.
Qed.

(** ** Every ordered team with a member has a category *)

Lemma lastMember_snoc (l : list Person) (x : Person) :
  lastMember (l ++ [x]) = Some x.
Proof.
  unfold lastMember. rewrite length_app. simpl.
  rewrite nth_error_app2 by lia.
  replace (length l + 1 - 1 - length l) with 0 by lia. reflexivity.
Qed.

Lemma lastIs_contains (s : DogStatus) (t : list Person) :
  lastIs s t = true -> contains s t = true.
Proof.
  unfold lastIs, lastMember, contains.
  destruct (nth_error t (length t - 1)) as [p|] eqn:E; [|discriminate].
  intros H. apply existsb_exists. exists p. split; [|assumption].
  eapply nth_error_In, E.
Qed.

Lemma contains_false (s : DogStatus) (t : list Person) (p : Person) :
  contains s t = false -> In p t -> hasStatus s p = false.
Proof.
  unfold contains. intros H Hp.
  destruct (hasStatus s p) eqn:E; [|reflexivity].
  assert (existsb (hasStatus s) t = true) by (apply existsb_exists; eauto).
  congruence.
Qed.

Lemma list_eq_dec_nil (A : Type) (l : list A) : {l = []} + {l <> []}.
Proof. destruct l; [now left|now right]. Qed.

Lemma sortTeam_category (g : list Person) :
  sortTeam g <> [] -> exists c, categoryOf (sortTeam g) = Some c.
Proof.
  intros Hne.
  destruct (sortTeam_shape g) as (rest & E & Hrest & _).
  assert (Hcl : forall p, In p (sortTeam g) -> classified p = true)
    by (intros p Hp; now apply sortTeam_classified in Hp).
  set (t := sortTeam g) in *.
  assert (M : forall X : option Category,
            match t with [] => None | _ :: _ => X end = X)
    by (destruct t; [congruence|reflexivity]).
  assert (H3 : negb (contains AVOID t) && negb (contains HAVE t)
               && negb (everyIs LIKE t) = false).
  { destruct (contains AVOID t) eqn:EA; [reflexivity|].
    destruct (contains HAVE t) eqn:EH; [reflexivity|]. simpl.
    apply negb_false_iff, forallb_forall. intros p Hp.
    destruct (classified_cases _ (Hcl p Hp)) as [C|[C|C]]; [|assumption|].
    - rewrite (contains_false _ _ _ EA Hp) in C. discriminate.
    - rewrite (contains_false _ _ _ EH Hp) in C. discriminate. }
  unfold categoryOf. rewrite M.
  destruct (list_eq_dec_nil rest) as [Er|Er].
  - (* no LIKE or HAVE member: the team is its AVOID members *)
    subst rest. rewrite app_nil_r in E.
    assert (EA : everyIs AVOID t = true).
    { rewrite E. apply forallb_forall. intros p. apply In_filter_status. }
    assert (EH : contains HAVE t = false).
    { destruct (contains HAVE t) eqn:C; [|reflexivity].
      apply existsb_exists in C as (p & Hp & C).
      unfold everyIs in EA. rewrite forallb_forall in EA.
      discriminate (hasStatus_unique _ _ _ (EA p Hp) C). }
    rewrite EA, EH, andb_false_r. eauto.
  - (* the last member is a LIKE or a HAVE member *)
    destruct (exists_last Er) as (rest' & x & Ex).
    assert (Hx : hasStatus LIKE x = true \/ hasStatus HAVE x = true)
      by (apply Hrest; rewrite Ex; apply in_or_app; right; now left).
    assert (El : lastMember t = Some x)
      by (rewrite E, Ex, app_assoc; apply lastMember_snoc).
    assert (H1 : lastIs LIKE t || lastIs HAVE t = true).
    { unfold lastIs. rewrite El. destruct Hx as [-> | ->]; auto using orb_true_r. }
    assert (H2 : lastIs HAVE t && negb (contains HAVE t) = false).
    { destruct (lastIs HAVE t) eqn:L; [|reflexivity].
      now rewrite (lastIs_contains _ _ L). }
    destruct (contains AVOID t), (contains HAVE t), (everyIs AVOID t),
      (everyIs LIKE t), (everyIs HAVE t), (lastIs LIKE t), (lastIs HAVE t);
      simpl in *; try discriminate; eauto.
Qed.

(** ** The output holds the classified people *)

Lemma Permutation_filter (A : Type) (f : A -> bool) (l l' : list A) :
  Permutation l l' -> Permutation (filter f l) (filter f l').
Proof.
  induction 1 as [|x l l' _ IH|x y l|l l' l'' _ IH1 _ IH2]; simpl.
  - constructor.
  - destruct (f x); [now constructor|assumption].
  - destruct (f x), (f y); try reflexivity. apply perm_swap.
  - now transitivity (filter f l').
Qed.

Lemma flat_map_perm (A B : Type) (f g : A -> list B) (l : list A) :
  (forall x, In x l -> Permutation (f x) (g x)) ->
  Permutation (flat_map f l) (flat_map g l).
Proof.
  induction l as [|x l IH]; simpl; intros H; [constructor|].
  apply Permutation_app; [apply H; now left|].
  apply IH. intros y Hy. apply H. now right.
Qed.

Lemma filter_flat_map (A B : Type) (f : B -> bool) (g : A -> list B) (l : list A) :
  filter f (flat_map g l) = flat_map (fun x => filter f (g x)) l.
Proof.
  induction l as [|x l IH]; simpl; [reflexivity|].
  now rewrite filter_app, IH.
Qed.

Lemma teams_In (people : list Person) (e : Team) :
  In e (teams people) <->
  In (fst e) (map teamKey people)
  /\ snd e = sortTeam (filter (fun p => String.eqb (teamKey p) (fst e)) people).
Proof.
  rewrite teams_spec. split.
  - intros H. apply in_map_iff in H as (k & <- & Hk). simpl.
    split; [now apply firstSeen_In|reflexivity].
  - intros [Hk E]. apply in_map_iff. exists (fst e).
    split; [|now apply firstSeen_In].
    destruct e; simpl in *. now rewrite E.
Qed.

Lemma teams_members (people : list Person) (e : Team) (p : Person) :
  In e (teams people) -> In p (snd e) ->
  In p people /\ teamKey p = fst e /\ classified p = true.
Proof.
  intros He Hp. apply teams_In in He as [_ E]. rewrite E in Hp.
  apply sortTeam_classified in Hp as [Hp C].
  apply filter_In in Hp as [Hp K]. apply String.eqb_eq in K. auto.
Qed.

Lemma teams_category (people : list Person) (e : Team) :
  In e (teams people) -> snd e <> [] ->
  existsb (fun c => isCategory c e) allCategories = true.
Proof.
  intros He Hne. apply teams_In in He as [_ E]. rewrite E in Hne.
  destruct (sortTeam_category _ Hne) as (c & Hc).
  unfold isCategory. rewrite E, Hc. destruct c; reflexivity.
Qed.

Lemma existsb_false (A : Type) (f : A -> bool) (l : list A) (x : A) :
  existsb f l = false -> In x l -> f x = false.
Proof.
  intros H Hx. destruct (f x) eqn:E; [|reflexivity].
  assert (existsb f l = true) by (apply existsb_exists; eauto). congruence.
Qed.

(** When no team is left without members, the final order holds all the
    teams. *)
Lemma finalOrder_all (people : list Person) :
  existsb isEmptyTeam (teams people) = false ->
  Permutation (finalOrder (teams people)) (teams people).
Proof.
  intros H. rewrite finalOrder_perm. rewrite filter_all; [reflexivity|].
  intros e He. apply teams_category with people; [assumption|].
  apply isEmptyTeam_false. eapply existsb_false; eassumption.
Qed.

Lemma layoutOf_perm (people : list Person) :
  existsb isEmptyTeam (teams people) = false ->
  Permutation (layoutOf (teams people)) (filter classified people).
Proof.
  intros H. unfold layoutOf. rewrite <- flat_map_concat_map.
  rewrite (finalOrder_all _ H).
  unfold teams, sortTeams. rewrite flat_map_concat_map, map_map. simpl.
  rewrite <- flat_map_concat_map.
  rewrite (flat_map_perm _ (fun e : Team => filter classified (snd e)))
    by (intros; apply sortTeam_perm).
  rewrite <- filter_flat_map. apply Permutation_filter.
  rewrite flat_map_concat_map. apply teamGroups_perm.
Qed.

(** A team of the input has a classified member exactly when its ordered
    form has a member. *)
Lemma teams_no_empty (people : list Person) :
  existsb isEmptyTeam (teams people) = false <->
  forall p, In p people ->
    exists q, In q people /\ teamKey q = teamKey p /\ classified q = true.
Proof.
  split.
  - intros H p Hp.
    set (e := (teamKey p,
               sortTeam (filter (fun q => String.eqb (teamKey q) (teamKey p)) people))).
    assert (He : In e (teams people))
      by (apply teams_In; unfold e; simpl; split; [now apply in_map|reflexivity]).
    assert (Hne := existsb_false _ _ _ H He).
    apply isEmptyTeam_false in Hne. simpl in Hne.
    destruct (sortTeam _) as [|q t] eqn:E in Hne; [congruence|].
    assert (Hq : In q (snd e)) by (simpl; rewrite E; now left).
    destruct (teams_members _ _ _ He Hq) as (? & ? & ?). exists q. auto.
  - intros H. destruct (existsb isEmptyTeam (teams people)) eqn:E; [|reflexivity].
    apply existsb_exists in E as (e & He & Hnil).
    apply teams_In in He as [Hk E]. apply in_map_iff in Hk as (p & Hk & Hp).
    destruct (H p Hp) as (q & Hq & Kq & Cq).
    unfold isEmptyTeam in Hnil. rewrite E in Hnil.
    destruct (sortTeam _) eqn:Es in Hnil; [|discriminate].
    rewrite sortTeam_nil_iff in Es. rewrite (Es q) in Cq; [discriminate|].
    apply filter_In. split; [assumption|]. apply String.eqb_eq. congruence.
Qed.

(** ** Blocks with distinct keys are contiguous *)

Section Contiguity.

Variables (A K : Type) (key : A -> K).

Lemma prefix_keyed (k : K) (t rest l2 l3 : list A) (b : A) :
  t ++ rest = l2 ++ b :: l3 ->
  key b = k ->
  (forall x, In x t -> key x = k) ->
  (forall x, In x rest -> key x <> k) ->
  forall c, In c l2 -> key c = k.
Proof.
  revert l2. induction t as [|y t IH]; intros l2 E Hb Ht Hrest c Hc.
  - simpl in E. destruct (Hrest b); [|assumption].
    rewrite E. apply in_or_app. right. now left.
  - destruct l2 as [|c' l2]; [destruct Hc|].
    simpl in E. inversion E; subst c'. destruct Hc as [<-|Hc].
    + apply Ht. now left.
    + eapply IH; eauto. intros x Hx. apply Ht. now right.
Qed.

Lemma contiguous_prepend (k : K) (t rest : list A) :
  (forall x, In x t -> key x = k) ->
  (forall x, In x rest -> key x <> k) ->
  contiguousBy key rest ->
  contiguousBy key (t ++ rest).
Proof.
  intros Ht Hrest Hc. induction t as [|x t IH]; [exact Hc|].
  assert (IH' := IH (fun y Hy => Ht y (or_intror Hy))).
  intros l1 a l2 b l3 E Hab c Hin.
  destruct l1 as [|z l1]; simpl in E; inversion E; subst.
  - assert (Ha : key a = k) by (apply Ht; now left). rewrite Ha.
    apply (@prefix_keyed k t rest l2 l3 b); auto.
    + congruence.
    + intros y Hy. apply Ht. now right.
  - eapply IH'; eauto.
Qed.

Lemma contiguous_blocks (blocks : list (K * list A)) :
  NoDup (map fst blocks) ->
  (forall e x, In e blocks -> In x (snd e) -> key x = fst e) ->
  contiguousBy key (concat (map snd blocks)).
Proof.
  induction blocks as [|e bs IH]; intros Hnd Hkey.
  - intros l1 a l2 b l3 E. destruct l1; discriminate.
  - inversion Hnd as [|? ? Hfresh Hnd']; subst. simpl.
    apply contiguous_prepend with (k := fst e).
    + intros x Hx. apply Hkey; [now left|assumption].
    + intros x Hx Hk. apply Hfresh.
      apply in_concat in Hx as (t & Ht & Hx).
      apply in_map_iff in Ht as (e' & <- & He').
      apply in_map_iff. exists e'. split; [|assumption].
      rewrite <- Hk. symmetry. apply Hkey; [now right|assumption].
    + apply IH; [assumption|]. intros e' x He'. apply Hkey. now right.
Qed.

End Contiguity.

(* ------------------------------------------------------------------ *)
(** * The claims *)

(** C1 (permutation property).  When every person of the input has one of
    the preferences AVOID, LIKE, HAVE, the call returns, its output is a
    permutation of the input (the same multiset of [Person] records), and
    the output has the length of the input. *)
Theorem C1_output_is_permutation (people : list Person) :
  (forall p, In p people -> exists s, dogStatus p = Some s) ->
  exists out,
    calculateDeskLayout people = Ok out
    /\ Permutation people out
    /\ length out = length people.
Proof.
  intros Hall.
  assert (Hcl : forall p, In p people -> classified p = true).
  { intros p Hp. destruct (Hall p Hp) as (s & E). unfold classified. now rewrite E. }
  assert (Hne : existsb isEmptyTeam (teams people) = false).
  { apply teams_no_empty. intros p Hp. exists p. auto. }
  rewrite calculateDeskLayout_spec, Hne.
  assert (Hperm : Permutation people (layoutOf (teams people))).
  { symmetry. rewrite (layoutOf_perm _ Hne). now rewrite filter_all. }
  eexists. split; [reflexivity|]. split; [assumption|].
  symmetry. now apply Permutation_length.
Qed.

Lemma C1_witness :
  exists out,
    calculateDeskLayout [alice; leo; kim; charlie; david; eve] = Ok out
    /\ Permutation [alice; leo; kim; charlie; david; eve] out
    /\ length out = length [alice; leo; kim; charlie; david; eve].
Proof.
  apply C1_output_is_permutation.
  intros p Hp. simpl in Hp.
  repeat (destruct Hp as [<-|Hp]; [eexists; reflexivity|]). destruct Hp.
Defined.

(** A team all of whose members lack a recognised preference makes the
    call throw: its ordered form has no member, and the callback of
    [teamsSamePreferences] reads [team[0].dogStatus]. *)
Lemma unclassified_team_throws (people : list Person) (p : Person) :
  In p people ->
  (forall q, In q people -> teamKey q = teamKey p -> dogStatus q = None) ->
  calculateDeskLayout people = TypeError.
Proof.
  intros Hp Hteam. rewrite calculateDeskLayout_spec.
  destruct (existsb isEmptyTeam (teams people)) eqn:E; [reflexivity|].
  rewrite teams_no_empty in E. destruct (E p Hp) as (q & Hq & Kq & Cq).
  unfold classified in Cq. now rewrite (Hteam q Hq Kq) in Cq.
Qed.

(** C2 (a team without any recognised preference).  The claim says that
    the call returns and leaves the team out.  On the input that consists of
    one person without a preference the call throws a [TypeError]. *)
Theorem C2_unclassified_team_throws :
  calculateDeskLayout [frank] = TypeError
  /\ calculateDeskLayout [alice; frank; bob] = TypeError.
Proof. split; reflexivity. Qed.

(** C3 (buffer distribution, as amended).  In a team with [h > 1] HAVE
    members and [l] LIKE members, the number of LIKE members before the
    first HAVE member of the ordered team is [l / (h + 1)], plus one when
    [l mod (h + 1) > 0]; for [h = 2] and [l = 5] this number is 2. *)
Theorem C3_first_buffer (t : list Person) :
  let h := length (filter (hasStatus HAVE) t) in
  let l := length (filter (hasStatus LIKE) t) in
  1 < h ->
  likesBeforeFirstHave (sortTeam t)
  = l / (h + 1) + (if 0 <? l mod (h + 1) then 1 else 0)
  /\ (h = 2 -> l = 5 -> likesBeforeFirstHave (sortTeam t) = 2).
Proof.
  intros h l Hh.
  assert (E : likesBeforeFirstHave (sortTeam t)
              = l / (h + 1) + (if 0 <? l mod (h + 1) then 1 else 0)).
  { unfold likesBeforeFirstHave. rewrite sortTeam_beforeFirstHave by exact Hh.
    fold h l. rewrite filter_app, length_app.
    rewrite filter_none.
    - rewrite filter_all.
      + rewrite length_firstn. fold l.
        destruct (initialLikes_bounds l h) as [Hle _]. simpl in *. lia.
      + intros p Hp. eapply In_filter_status, In_firstn, Hp.
    - intros p Hp. apply In_filter_status in Hp.
      destruct (hasStatus LIKE p) eqn:El; [|reflexivity].
      discriminate (hasStatus_unique _ _ _ Hp El). }
  split; [exact E|]. intros H2 H5. rewrite E, H2, H5. reflexivity.
Qed.

Lemma C3_witness :
  likesBeforeFirstHave (sortTeam team_h2_l5) = 5 / (2 + 1) + 1
  /\ likesBeforeFirstHave (sortTeam team_h2_l5) = 2.
Proof.
  destruct (C3_first_buffer team_h2_l5) as [E E'].
  - simpl. lia.
  - split; [exact E|]. apply E'; reflexivity.
Defined.

(** The claim C3 as stated fails: the team [team_h2_l5] has two HAVE and
    five LIKE members, and its first buffer holds 2 members, not 3. *)
Lemma C3_counterexample :
  length (filter (hasStatus HAVE) team_h2_l5) = 2
  /\ length (filter (hasStatus LIKE) team_h2_l5) = 5
  /\ likesBeforeFirstHave (sortTeam team_h2_l5) = 2
  /\ likesBeforeFirstHave (sortTeam team_h2_l5) <> 3.
Proof. repeat split; try reflexivity. discriminate. Qed.

Lemma teamsOf_singleton (c : Category) (e : Team) :
  teamsOf c [e] = if isCategory c e then [e] else [].
Proof. reflexivity. Qed.

Lemma bucket_bucketsOf (c : Category) (ts : list Team) :
  bucket (bucketsOf ts) c = teamsOf c ts.
Proof. destruct c; reflexivity. Qed.

(** C4, scenario 3: teams of one preference. *)

Lemma alternate_no_like q r hl i (rest : list Person) st :
  fst (alternate q r hl [] i rest st) = fst st ++ rest.
Proof.
  revert i st. induction rest as [|h rest IH]; intros i st; simpl.
  - now rewrite app_nil_r.
  - rewrite IH. unfold slice. rewrite skipn_nil, firstn_nil.
    destruct (i <? hl - 1); simpl; rewrite ?app_nil_r, <- app_assoc; reflexivity.
Qed.

Lemma filter_other_status (s s' : DogStatus) (g : list Person) :
  s <> s' ->
  (forall p, In p g -> hasStatus s p = true) ->
  filter (hasStatus s') g = [].
Proof.
  intros Hne H. apply filter_none. intros p Hp.
  destruct (hasStatus s' p) eqn:E; [|reflexivity].
  destruct Hne. eapply hasStatus_unique; eauto.
Qed.

(** A team of AVOID members only, or of HAVE members only, keeps its order. *)
Lemma sortTeam_uniform (s : DogStatus) (g : list Person) :
  s = AVOID \/ s = HAVE ->
  (forall p, In p g -> hasStatus s p = true) ->
  sortTeam g = g.
Proof.
  intros Hs H. unfold sortTeam. destruct Hs as [-> | ->].
  - rewrite (filter_all _ _ H).
    rewrite (@filter_other_status AVOID HAVE g), (@filter_other_status AVOID LIKE g);
      auto; try discriminate.
    simpl. now rewrite !app_nil_r.
  - rewrite (filter_all _ _ H).
    rewrite (@filter_other_status HAVE AVOID g), (@filter_other_status HAVE LIKE g);
      auto; try discriminate.
    destruct (1 <? length g); [|reflexivity].
    rewrite push_remaining, alternate_no_like. simpl fst.
    unfold slice. now rewrite !skipn_nil, firstn_nil, app_nil_r.
Qed.

Lemma isCategory_uniform (s : DogStatus) (k : string) (g : list Person) (c : Category) :
  g <> [] ->
  (forall p, In p g -> hasStatus s p = true) ->
  isCategory c (k, g)
  = Category_eqb (match s with AVOID => OnlyAvoid | LIKE => OnlyLike | HAVE => OnlyHave end) c.
Proof.
  intros Hne H. unfold isCategory. simpl.
  destruct g as [|p g']; [congruence|]. set (g := p :: g') in *.
  assert (Hev : everyIs s g = true) by (apply forallb_forall; exact H).
  assert (Hother : forall s', s <> s' -> contains s' g = false /\ everyIs s' g = false).
  { intros s' Hs'. split.
    - destruct (contains s' g) eqn:E; [|reflexivity].
      apply existsb_exists in E as (q & Hq & E). destruct Hs'.
      eapply hasStatus_unique; eauto.
    - destruct (everyIs s' g) eqn:E; [|reflexivity].
      unfold everyIs in E. rewrite forallb_forall in E. destruct Hs'.
      apply (@hasStatus_unique s s' p); [apply H|apply E]; now left. }
  unfold categoryOf. fold g.
  change (match g with [] => None | _ :: _ => ?x end) with x.
  destruct s.
  - destruct (Hother HAVE) as [-> _]; [discriminate|].
    now rewrite Hev, andb_false_r.
  - destruct (Hother AVOID) as [-> ->]; [discriminate|]. now rewrite Hev.
  - destruct (Hother AVOID) as [-> ->]; [discriminate|].
    destruct (Hother LIKE) as [_ ->]; [discriminate|]. now rewrite Hev.
Qed.

Lemma scenario3_layout (people : list Person) (ka kb : string) :
  ka <> kb ->
  (forall p, In p people ->
     (teamKey p = ka /\ dogStatus p = Some AVOID)
     \/ (teamKey p = kb /\ dogStatus p = Some HAVE)) ->
  calculateDeskLayout people
  = Ok (filter (hasStatus AVOID) people ++ filter (hasStatus HAVE) people).
Proof.
  intros Hne Hall. rewrite calculateDeskLayout_spec, teams_spec.
  set (A := filter (hasStatus AVOID) people).
  set (H := filter (hasStatus HAVE) people).
  assert (EA : filter (fun p => String.eqb (teamKey p) ka) people = A).
  { apply filter_ext_in. intros p Hp. unfold hasStatus.
    destruct (Hall p Hp) as [[-> ->]|[-> ->]]; simpl.
    - apply String.eqb_refl.
    - apply String.eqb_neq. congruence. }
  assert (EH : filter (fun p => String.eqb (teamKey p) kb) people = H).
  { apply filter_ext_in. intros p Hp. unfold hasStatus.
    destruct (Hall p Hp) as [[-> ->]|[-> ->]]; simpl.
    - now apply String.eqb_neq.
    - apply String.eqb_refl. }
  assert (SA : sortTeam A = A)
    by (apply sortTeam_uniform with AVOID; [now left|apply In_filter_status]).
  assert (SH : sortTeam H = H)
    by (apply sortTeam_uniform with HAVE; [now right|apply In_filter_status]).
  assert (CA : forall c, A <> [] -> isCategory c (ka, A) = Category_eqb OnlyAvoid c)
    by (intros c HA; apply (@isCategory_uniform AVOID); [assumption|apply In_filter_status]).
  assert (CH : forall c, H <> [] -> isCategory c (kb, H) = Category_eqb OnlyHave c)
    by (intros c HH; apply (@isCategory_uniform HAVE); [assumption|apply In_filter_status]).
  assert (Hks : forall k, In k (firstSeen (map teamKey people)) -> k = ka \/ k = kb).
  { intros k Hk. apply firstSeen_In, in_map_iff in Hk as (p & <- & Hp).
    destruct (Hall p Hp) as [[? _]|[? _]]; auto. }
  assert (NA : ~ In ka (firstSeen (map teamKey people)) -> A = []).
  { intros Hn. apply filter_none. intros p Hp. unfold hasStatus.
    destruct (Hall p Hp) as [[K _]|[_ ->]]; [|reflexivity].
    destruct Hn. apply firstSeen_In. rewrite <- K. now apply in_map. }
  assert (NH : ~ In kb (firstSeen (map teamKey people)) -> H = []).
  { intros Hn. apply filter_none. intros p Hp. unfold hasStatus.
    destruct (Hall p Hp) as [[_ ->]|[K _]]; [reflexivity|].
    destruct Hn. apply firstSeen_In. rewrite <- K. now apply in_map. }
  assert (PA : In ka (firstSeen (map teamKey people)) -> A <> []).
  { intros Hk. apply firstSeen_In, in_map_iff in Hk as (p & K & Hp).
    assert (Hin : In p (filter (fun p => String.eqb (teamKey p) ka) people))
      by (apply filter_In; split; [assumption|now apply String.eqb_eq]).
    rewrite EA in Hin. intros E. rewrite E in Hin. destruct Hin. }
  assert (PH : In kb (firstSeen (map teamKey people)) -> H <> []).
  { intros Hk. apply firstSeen_In, in_map_iff in Hk as (p & K & Hp).
    assert (Hin : In p (filter (fun p => String.eqb (teamKey p) kb) people))
      by (apply filter_In; split; [assumption|now apply String.eqb_eq]).
    rewrite EH in Hin. intros E. rewrite E in Hin. destruct Hin. }
  assert (Hnd := firstSeen_NoDup (map teamKey people)).
  destruct (firstSeen (map teamKey people)) as [|k1 [|k2 [|k3 ks]]].
  - rewrite NA, NH by (simpl; tauto). reflexivity.
  - destruct (Hks k1 (or_introl eq_refl)) as [-> | ->]; simpl map.
    + rewrite EA, SA. rewrite (NH ltac:(simpl; intuition congruence)) in *.
      specialize (PA (or_introl eq_refl)).
      unfold layoutOf, finalOrder, teamsOf, isEmptyTeam. simpl.
      rewrite !CA by assumption. simpl.
      destruct A; [congruence|]. now rewrite !app_nil_r.
    + rewrite EH, SH. rewrite (NA ltac:(simpl; intuition congruence)) in *.
      specialize (PH (or_introl eq_refl)).
      unfold layoutOf, finalOrder, teamsOf, isEmptyTeam. simpl.
      rewrite !CH by assumption. simpl.
      destruct H; [congruence|]. now rewrite !app_nil_r.
  - assert (K1 := Hks k1 (or_introl eq_refl)).
    assert (K2 := Hks k2 (or_intror (or_introl eq_refl))).
    assert (k1 <> k2)
      by (inversion Hnd as [|? ? Hn _]; subst; simpl in Hn; intuition congruence).
    assert (HA : A <> []) by (apply PA; simpl; intuition congruence).
    assert (HH : H <> []) by (apply PH; simpl; intuition congruence).
    destruct K1 as [-> | ->], K2 as [-> | ->]; try congruence; simpl map;
      rewrite EA, SA, EH, SH;
      unfold layoutOf, finalOrder, teamsOf, isEmptyTeam; simpl;
      rewrite !CA, !CH by assumption; simpl;
      destruct A; try congruence; destruct H; try congruence;
      now rewrite !app_nil_r.
  - exfalso.
    assert (K1 := Hks k1 (or_introl eq_refl)).
    assert (K2 := Hks k2 (or_intror (or_introl eq_refl))).
    assert (K3 := Hks k3 (or_intror (or_intror (or_introl eq_refl)))).
    inversion Hnd as [|? ? Hn1 Hnd']; subst.
    inversion Hnd' as [|? ? Hn2 _]; subst. simpl in Hn1, Hn2.
    intuition congruence.
Qed.

(** C4 (composition order).  The teams are the groups in the order of
    first occurrence, each in its intra-team order; whenever the call
    returns, the classifier has sorted them into the buckets of section 4.3
    (each bucket in that order), and the output is the concatenation of the
    blocks of [OnlyAvoid], [AvoidEndLike], [BothEndLike], the middle block,
    [HaveEndHave], [OnlyHave].  For an input made of one team of AVOID
    members and one team of HAVE members, the call returns the AVOID team
    followed by the HAVE team. *)
Theorem C4_composition_order :
  (forall people : list Person,
      teams people
      = map (fun k => (k, sortTeam (filter (fun p => String.eqb (teamKey p) k) people)))
            (firstSeen (map teamKey people)))
  /\ (forall people out : list Person,
        calculateDeskLayout people = Ok out ->
        exists b,
          categorize (teams people) = Ok b
          /\ (forall c, bucket b c = filter (isCategory c) (teams people))
          /\ out = concat (map snd
                     (teamsOnlyAvoid b ++ teamsAvoidEndLike b
                      ++ teamsWithBothEndLike b
                      ++ middleSpec (teamsWithBothEndHave b) (teamsOnlyLike b)
                                    (teamsHaveEndLike b)
                      ++ teamsHaveEndHave b ++ teamsOnlyHave b)))
  /\ (forall (people : list Person) (ka kb : string),
        ka <> kb ->
        (forall p, In p people ->
           (teamKey p = ka /\ dogStatus p = Some AVOID)
           \/ (teamKey p = kb /\ dogStatus p = Some HAVE)) ->
        calculateDeskLayout people
        = Ok (filter (hasStatus AVOID) people ++ filter (hasStatus HAVE) people)).
Proof.
  split; [exact teams_spec|]. split; [|exact scenario3_layout].
  intros people out H. apply calculateDeskLayout_Ok in H as [Hne ->].
  exists (bucketsOf (teams people)). split; [|split].
  - rewrite categorize_spec. now rewrite Hne.
  - intros c. apply bucket_bucketsOf.
  - reflexivity.
Qed.

Lemma C4_witness :
  (exists b,
      categorize (teams [kim; charlie; alice; leo]) = Ok b
      /\ (forall c, bucket b c = filter (isCategory c) (teams [kim; charlie; alice; leo]))
      /\ [charlie; alice; leo; kim]
         = concat (map snd
             (teamsOnlyAvoid b ++ teamsAvoidEndLike b ++ teamsWithBothEndLike b
              ++ middleSpec (teamsWithBothEndHave b) (teamsOnlyLike b)
                            (teamsHaveEndLike b)
              ++ teamsHaveEndHave b ++ teamsOnlyHave b)))
  /\ calculateDeskLayout [kim; charlie]
     = Ok (filter (hasStatus AVOID) [kim; charlie]
           ++ filter (hasStatus HAVE) [kim; charlie]).
Proof.
  destruct C4_composition_order as (_ & Hout & Hscenario).
  split.
  - apply (Hout [kim; charlie; alice; leo]). reflexivity.
  - apply (Hscenario [kim; charlie] "a"%string "b"%string).
    + discriminate.
    + intros p [<-|[<-|[]]]; [right|left]; split; reflexivity.
Defined.

(** C5 (the middle block).  Given fuel for its three buckets, step 4
    returns the middle block of section 4.4: when [BothEndHave] is not empty,
    its first team and then the rounds (one [OnlyLike] team if there is one
    left, else one [HaveEndLike] team if there is one left; then the next
    [BothEndHave] team if there is one left) until the three buckets are
    consumed; when [BothEndHave] is empty, all the [OnlyLike] teams and then
    all the [HaveEndLike] teams.  No element of the block is [undefined]. *)
Theorem C5_middle_block (bothEndHave onlyLike haveEndLike : list Team) (fuel : nat) :
  length bothEndHave + length onlyLike + length haveEndLike <= fuel ->
  buildTeamsInMiddle bothEndHave onlyLike haveEndLike fuel
  = Ok (map Some (middleSpec bothEndHave onlyLike haveEndLike))
  /\ middleSpec [] onlyLike haveEndLike = onlyLike ++ haveEndLike
  /\ (forall b rest,
        bothEndHave = b :: rest ->
        middleSpec bothEndHave onlyLike haveEndLike
        = b :: middleRounds rest onlyLike haveEndLike).
Proof.
  intros Hfuel. split; [now apply buildTeamsInMiddle_spec|].
  split; [reflexivity|]. intros b rest ->. reflexivity.
Qed.

Lemma C5_witness :
  buildTeamsInMiddle [("a", [charlie; david]); ("b", [charlie; eve])]%string
                     [("c", [alice])]%string
                     [("d", [david; bob]); ("e", [eve; heidi])]%string 5
  = Ok [Some ("a", [charlie; david]); Some ("c", [alice]);
        Some ("b", [charlie; eve]); Some ("d", [david; bob]);
        Some ("e", [eve; heidi])]%string.
Proof.
  apply (C5_middle_block
           [("a", [charlie; david]); ("b", [charlie; eve])]%string
           [("c", [alice])]%string
           [("d", [david; bob]); ("e", [eve; heidi])]%string (fuel := 5)).
  simpl. lia.
Defined.

Lemma layoutOf_contiguous (people : list Person) :
  contiguousBy teamKey (layoutOf (teams people)).
Proof.
  unfold layoutOf. apply contiguous_blocks.
  - apply finalOrder_keys_NoDup, teams_keys_NoDup.
  - intros e p He Hp. apply finalOrder_incl in He.
    now destruct (teams_members _ _ _ He Hp) as (_ & K & _).
Qed.

(** C6 (team contiguity).  In every output, the members of one team key
    ([team.id], or ["none"] for the people without a team) form one block:
    between two members with the same key there is no member with another
    key. *)
Theorem C6_teams_contiguous (people out : list Person) :
  calculateDeskLayout people = Ok out ->
  contiguousBy teamKey out.
Proof.
  intros H. apply calculateDeskLayout_Ok in H as [_ ->].
  apply layoutOf_contiguous.
Qed.

Lemma C6_witness :
  contiguousBy teamKey [charlie; alice; david; bob; eve; leo; kim].
Proof.
  apply (C6_teams_contiguous [alice; leo; kim; bob; charlie; david; eve]).
  reflexivity.
Defined.

(** C7 (the categories are exhaustive and exclusive).  An ordered team
    with at least one classified member is accepted by the filters of
    exactly one bucket: classified on its own, no callback throws, one bucket
    holds the team and the other seven are empty; and in any input on which
    the classifier does not throw, every team is in exactly one bucket. *)
Theorem C7_exactly_one_bucket :
  (forall (k : string) (g : list Person),
      existsb classified (sortTeam g) = true ->
      exists b c,
        categorize [(k, sortTeam g)] = Ok b
        /\ bucket b c = [(k, sortTeam g)]
        /\ forall c', c' <> c -> bucket b c' = [])
  /\ (forall (people : list Person) (b : Buckets) (e : Team),
        categorize (teams people) = Ok b ->
        In e (teams people) ->
        exists c, forall c', In e (bucket b c') <-> c' = c).
Proof.
  split.
  - intros k g Hc.
    assert (Hne : sortTeam g <> []) by (destruct (sortTeam g); [discriminate|congruence]).
    destruct (sortTeam_category _ Hne) as (c & Ec).
    exists (bucketsOf [(k, sortTeam g)]), c. split; [|split].
    + apply categorize_ok. intros e [<-|[]]. exact Hne.
    + rewrite bucket_bucketsOf, teamsOf_singleton. unfold isCategory. simpl.
      rewrite Ec. now destruct c.
    + intros c' Hc'. rewrite bucket_bucketsOf, teamsOf_singleton.
      unfold isCategory. simpl. rewrite Ec.
      destruct (Category_eqb c c') eqn:E; [|reflexivity].
      apply Category_eqb_eq in E. congruence.
  - intros people b e Hb He. rewrite categorize_spec in Hb.
    destruct (existsb isEmptyTeam (teams people)) eqn:E; [discriminate|].
    inversion Hb; subst b.
    assert (Hne : snd e <> [])
      by (apply isEmptyTeam_false; eapply existsb_false; eassumption).
    assert (Hcat := teams_category _ _ He Hne).
    apply existsb_exists in Hcat as (c & _ & Hc). exists c. intros c'.
    rewrite bucket_bucketsOf. unfold teamsOf. rewrite filter_In. split.
    + intros [_ Hc']. eapply isCategory_unique; eassumption.
    + intros ->. now split.
Qed.

Lemma C7_witness :
  (exists b c,
      categorize [("a"%string, sortTeam [alice; bob; charlie; david; eve])] = Ok b
      /\ bucket b c = [("a"%string, sortTeam [alice; bob; charlie; david; eve])]
      /\ forall c', c' <> c -> bucket b c' = [])
  /\ (exists c, forall c',
        In ("b"%string, [kim])
           (bucket (bucketsOf (teams [alice; kim; charlie])) c') <-> c' = c).
Proof.
  split.
  - apply (proj1 C7_exactly_one_bucket). reflexivity.
  - apply (proj2 C7_exactly_one_bucket [alice; kim; charlie]).
    + reflexivity.
    + simpl. right. now left.
Defined.

Lemma avoidNextToHave_no_avoid (t : list Person) :
  (forall p, In p t -> hasStatus AVOID p = false) ->
  avoidNextToHave t = false.
Proof.
  induction t as [|p [|q t] IH]; intros H; try reflexivity.
  change (avoidNextToHave (p :: q :: t))
    with ((hasStatus AVOID p && hasStatus HAVE q)
          || (hasStatus HAVE p && hasStatus AVOID q)
          || avoidNextToHave (q :: t)).
  rewrite (H p), (H q), IH; simpl; auto using andb_false_r.
  - now rewrite andb_false_r.
  - intros r Hr. apply H. now right.
Qed.

Lemma avoidNextToHave_buffered (avoid rest : list Person) (x : Person) :
  (forall p, In p avoid -> hasStatus AVOID p = true) ->
  hasStatus LIKE x = true ->
  (forall p, In p rest -> hasStatus AVOID p = false) ->
  avoidNextToHave (avoid ++ x :: rest) = false.
Proof.
  intros Ha Hx Hrest.
  assert (HxA : hasStatus AVOID x = false).
  { destruct (hasStatus AVOID x) eqn:E; [|reflexivity].
    discriminate (hasStatus_unique _ _ _ Hx E). }
  assert (HxH : hasStatus HAVE x = false).
  { destruct (hasStatus HAVE x) eqn:E; [|reflexivity].
    discriminate (hasStatus_unique _ _ _ Hx E). }
  induction avoid as [|a avoid IH].
  - apply avoidNextToHave_no_avoid. intros p [<-|Hp]; auto.
  - assert (IH' := IH (fun p Hp => Ha p (or_intror Hp))).
    assert (HaA : hasStatus AVOID a = true) by (apply Ha; now left).
    assert (HaH : hasStatus HAVE a = false).
    { destruct (hasStatus HAVE a) eqn:E; [|reflexivity].
      discriminate (hasStatus_unique _ _ _ HaA E). }
    destruct avoid as [|a' avoid].
    + change (avoidNextToHave ([a] ++ x :: rest))
        with ((hasStatus AVOID a && hasStatus HAVE x)
              || (hasStatus HAVE a && hasStatus AVOID x)
              || avoidNextToHave ([] ++ x :: rest)).
      now rewrite IH', HaH, HxH, andb_false_r.
    + assert (Ha'H : hasStatus HAVE a' = false).
      { destruct (hasStatus HAVE a') eqn:E; [|reflexivity].
        assert (Ha' : hasStatus AVOID a' = true) by (apply Ha; right; now left).
        discriminate (hasStatus_unique _ _ _ Ha' E). }
      change (avoidNextToHave ((a :: a' :: avoid) ++ x :: rest))
        with ((hasStatus AVOID a && hasStatus HAVE a')
              || (hasStatus HAVE a && hasStatus AVOID a')
              || avoidNextToHave ((a' :: avoid) ++ x :: rest)).
      now rewrite IH', HaH, Ha'H, andb_false_r.
Qed.

(** C8 (buffer between AVOID and HAVE).  In the ordered form of a team
    with at least one LIKE member, no AVOID member sits next to a HAVE
    member; hence such a neighbourhood occurs only in teams without LIKE
    members. *)
Theorem C8_like_buffer (t : list Person) :
  (contains LIKE t = true -> avoidNextToHave (sortTeam t) = false)
  /\ (avoidNextToHave (sortTeam t) = true -> filter (hasStatus LIKE) t = []).
Proof.
  assert (H : contains LIKE t = true -> avoidNextToHave (sortTeam t) = false).
  { intros Hl.
    destruct (sortTeam_shape t) as (rest & E & Hrest & Hhd).
    destruct Hhd as (x & rest' & -> & Hx).
    { apply existsb_exists in Hl as (p & Hp & Hs).
      intros En. assert (Hin : In p (filter (hasStatus LIKE) t))
        by (apply filter_In; now split).
      rewrite En in Hin. destruct Hin. }
    rewrite E. apply avoidNextToHave_buffered; [|assumption|].
    - intros p. apply In_filter_status.
    - intros p Hp. destruct (hasStatus AVOID p) eqn:Ea; [|reflexivity].
      destruct (Hrest p (or_intror Hp)) as [C|C];
        discriminate (hasStatus_unique _ _ _ Ea C). }
  split; [exact H|]. intros Hadj.
  destruct (filter (hasStatus LIKE) t) as [|p l] eqn:E; [reflexivity|].
  rewrite H in Hadj; [discriminate|].
  apply existsb_exists. exists p.
  assert (Hin : In p (filter (hasStatus LIKE) t)) by (rewrite E; now left).
  now apply filter_In in Hin.
Qed.

Lemma C8_witness :
  avoidNextToHave (sortTeam [alice; charlie; david; eve]) = false
  /\ filter (hasStatus LIKE) [charlie; david] = [].
Proof.
  split.
  - apply (proj1 (C8_like_buffer [alice; charlie; david; eve])). reflexivity.
  - apply (proj2 (C8_like_buffer [charlie; david])). reflexivity.
Defined.

(** What holds of the silent exclusion: when every team has a member with
    a recognised preference, the call returns the people with a recognised
    preference, and nobody else. *)
Lemma unclassified_excluded (people : list Person) :
  (forall p, In p people ->
     exists q, In q people /\ teamKey q = teamKey p /\ classified q = true) ->
  exists out,
    calculateDeskLayout people = Ok out
    /\ Permutation out (filter classified people)
    /\ forall p, dogStatus p = None -> ~ In p out.
Proof.
  intros H. apply teams_no_empty in H.
  rewrite calculateDeskLayout_spec, H. eexists. split; [reflexivity|].
  split; [now apply layoutOf_perm|].
  intros p Hp Hin. apply (Permutation_in _ (layoutOf_perm _ H)) in Hin.
  apply filter_In in Hin as [_ C]. unfold classified in C. now rewrite Hp in C.
Qed.

(** C9 (silent exclusion).  The claim says that for every input the call
    returns and leaves out a person without a recognised preference whose
    team has a member with one.  [grace] is such a person in the input
    below, but the team of [frank] has no such member and the call throws a
    [TypeError]. *)
Theorem C9_exclusion_throws :
  In grace [grace; alice; frank]
  /\ dogStatus grace = None
  /\ (teamKey alice = teamKey grace /\ dogStatus alice = Some LIKE)
  /\ calculateDeskLayout [grace; alice; frank] = TypeError.
Proof. repeat split; try reflexivity. now left. Qed.

(** C10 (termination).  While the condition of the [while] loop holds, an
    iteration lowers none of the three indices and raises at least one; so
    the loop ends within as many iterations as there are unconsumed teams,
    and the call returns or throws whatever the fuel above three times the
    number of people. *)
Theorem C10_terminates :
  (forall (bothEndHave onlyLike haveEndLike : list Team) (s : MiddleState),
      loopCond bothEndHave onlyLike haveEndLike s = true ->
      let s' := loopBody bothEndHave onlyLike haveEndLike s in
      bothEndHaveIndex s <= bothEndHaveIndex s'
      /\ onlyLikeIndex s <= onlyLikeIndex s'
      /\ haveEndLikeIndex s <= haveEndLikeIndex s'
      /\ (bothEndHaveIndex s < bothEndHaveIndex s'
          \/ onlyLikeIndex s < onlyLikeIndex s'
          \/ haveEndLikeIndex s < haveEndLikeIndex s'))
  /\ (forall (bothEndHave onlyLike haveEndLike : list Team) (s : MiddleState)
             (fuel : nat),
        unconsumedTeams bothEndHave onlyLike haveEndLike s <= fuel ->
        exists s',
          whileLoop bothEndHave onlyLike haveEndLike fuel s = Ok s'
          /\ loopCond bothEndHave onlyLike haveEndLike s' = false)
  /\ (forall (people : list Person) (fuel : nat),
        3 * length people <= fuel ->
        calculateDeskLayoutFuel fuel people = calculateDeskLayout people
        /\ calculateDeskLayout people <> OutOfFuel).
Proof.
  split; [|split].
  - intros beh ol hel s Hc. simpl.
    destruct (loopBody_indices beh ol hel s Hc) as (? & ? & ? & ? & _). auto.
  - intros beh ol hel s fuel Hfuel.
    destruct (whileLoop_rounds beh ol hel s Hfuel) as (s' & E & Hc & _).
    exists s'. auto.
  - intros people fuel Hfuel.
    rewrite calculateDeskLayoutFuel_spec by assumption.
    rewrite calculateDeskLayout_spec. split; [reflexivity|].
    destruct (existsb isEmptyTeam (teams people)); discriminate.
Qed.

Lemma C10_witness :
  (exists s',
      whileLoop [("a", [charlie; david]); ("b", [charlie; eve])]%string
                [("c", [alice])]%string [] 2
                (mkMiddleState 1 0 0 [Some ("a", [charlie; david])]%string)
      = Ok s'
      /\ loopCond [("a", [charlie; david]); ("b", [charlie; eve])]%string
                  [("c", [alice])]%string [] s' = false)
  /\ (calculateDeskLayoutFuel 100 [alice; kim; charlie]
      = calculateDeskLayout [alice; kim; charlie]
      /\ calculateDeskLayout [alice; kim; charlie] <> OutOfFuel)
  /\ (let s := mkMiddleState 1 0 0 [] in
      let s' := loopBody [("a", [charlie; david]); ("b", [charlie; eve])]%string
                         [("c", [alice])]%string [] s in
      bothEndHaveIndex s < bothEndHaveIndex s'
      \/ onlyLikeIndex s < onlyLikeIndex s'
      \/ haveEndLikeIndex s < haveEndLikeIndex s').
Proof.
  destruct C10_terminates as (Hstep & Hloop & Hcall).
  split; [|split].
  - apply Hloop. unfold unconsumedTeams. simpl. lia.
  - apply Hcall. simpl. lia.
  - apply Hstep. reflexivity.
Defined.

(* ------------------------------------------------------------------ *)
(** * Further properties of the code *)

(** ** The intra-team orderer keeps the order within each preference *)

Lemma filter_slice_same (s : DogStatus) (l : list Person) (i j : nat) :
  (forall p, In p l -> hasStatus s p = true) ->
  filter (hasStatus s) (slice l i j) = slice l i j.
Proof.
  intros H. apply filter_all. intros p Hp. eapply H, In_slice, Hp.
Qed.

Lemma filter_slice_other (s s' : DogStatus) (l : list Person) (i j : nat) :
  s <> s' ->
  (forall p, In p l -> hasStatus s p = true) ->
  filter (hasStatus s') (slice l i j) = [].
Proof.
  intros Hne H. apply filter_other_status with s; [assumption|].
  intros p Hp. eapply H, In_slice, Hp.
Qed.

Lemma alternate_filter_like q r hl (like : list Person) i rest st :
  (forall p, In p like -> hasStatus LIKE p = true) ->
  (forall p, In p rest -> hasStatus HAVE p = true) ->
  filter (hasStatus LIKE) (fst (alternate q r hl like i rest st))
    ++ skipn (snd (alternate q r hl like i rest st)) like
  = filter (hasStatus LIKE) (fst st) ++ skipn (snd st) like.
Proof.
  intros Hlike. revert i st.
  induction rest as [|h rest IH]; intros i [team0 idx] Hrest; [reflexivity|].
  simpl. rewrite IH by (intros p Hp; apply Hrest; now right).
  assert (Hh : hasStatus LIKE h = false).
  { destruct (hasStatus LIKE h) eqn:E; [|reflexivity].
    discriminate (hasStatus_unique _ _ _ E (Hrest h (or_introl eq_refl))). }
  destruct (i <? hl - 1); simpl.
  - rewrite !filter_app. simpl. rewrite Hh, app_nil_r.
    rewrite filter_slice_same by assumption.
    now rewrite <- app_assoc, slice_skipn.
  - rewrite filter_app. simpl. now rewrite Hh, app_nil_r.
Qed.

Lemma alternate_filter_have q r hl (like : list Person) i rest st :
  (forall p, In p like -> hasStatus LIKE p = true) ->
  (forall p, In p rest -> hasStatus HAVE p = true) ->
  filter (hasStatus HAVE) (fst (alternate q r hl like i rest st))
  = filter (hasStatus HAVE) (fst st) ++ rest.
Proof.
  intros Hlike. revert i st.
  induction rest as [|h rest IH]; intros i [team0 idx] Hrest; simpl.
  - now rewrite app_nil_r.
  - rewrite IH by (intros p Hp; apply Hrest; now right).
    assert (Hh : hasStatus HAVE h = true) by (apply Hrest; now left).
    destruct (i <? hl - 1); simpl.
    + rewrite !filter_app. simpl. rewrite Hh.
      rewrite (@filter_slice_other LIKE HAVE) by (assumption || discriminate).
      now rewrite app_nil_r, <- app_assoc.
    + rewrite filter_app. simpl. rewrite Hh. now rewrite <- app_assoc.
Qed.

Lemma sortTeam_filter_avoid (t : list Person) :
  filter (hasStatus AVOID) (sortTeam t) = filter (hasStatus AVOID) t.
Proof.
  destruct (sortTeam_shape t) as (rest & -> & Hrest & _).
  rewrite filter_app, filter_all by (intros p; apply In_filter_status).
  rewrite (@filter_none _ (hasStatus AVOID) rest); [apply app_nil_r|].
  intros p Hp. destruct (hasStatus AVOID p) eqn:E; [|reflexivity].
  destruct (Hrest p Hp) as [C|C]; discriminate (hasStatus_unique _ _ _ E C).
Qed.

Lemma sortTeam_filter_like (t : list Person) :
  filter (hasStatus LIKE) (sortTeam t) = filter (hasStatus LIKE) t.
Proof.
  unfold sortTeam.
  set (avoid := filter (hasStatus AVOID) t).
  set (have := filter (hasStatus HAVE) t).
  set (like := filter (hasStatus LIKE) t).
  assert (Hlike : forall p, In p like -> hasStatus LIKE p = true)
    by (intros p; apply In_filter_status).
  assert (Hhave : forall p, In p have -> hasStatus HAVE p = true)
    by (intros p; apply In_filter_status).
  assert (Ha : filter (hasStatus LIKE) avoid = []).
  { apply filter_other_status with AVOID; [discriminate|].
    intros p. apply In_filter_status. }
  assert (Hh : filter (hasStatus LIKE) have = [])
    by (apply filter_other_status with HAVE; [discriminate|assumption]).
  destruct (1 <? length have).
  - rewrite push_remaining, filter_app.
    rewrite (filter_all (hasStatus LIKE) (skipn _ like))
      by (intros p Hp; eapply Hlike, In_skipn, Hp).
    rewrite alternate_filter_like by assumption. simpl fst. simpl snd.
    rewrite filter_app, Ha, filter_slice_same by assumption.
    unfold slice. rewrite Nat.sub_0_r. simpl. apply firstn_skipn.
  - simpl. rewrite !filter_app, Ha, Hh, app_nil_r. simpl.
    now apply filter_all.
Qed.

Lemma sortTeam_filter_have (t : list Person) :
  filter (hasStatus HAVE) (sortTeam t) = filter (hasStatus HAVE) t.
Proof.
  unfold sortTeam.
  set (avoid := filter (hasStatus AVOID) t).
  set (have := filter (hasStatus HAVE) t).
  set (like := filter (hasStatus LIKE) t).
  assert (Hlike : forall p, In p like -> hasStatus LIKE p = true)
    by (intros p; apply In_filter_status).
  assert (Hhave : forall p, In p have -> hasStatus HAVE p = true)
    by (intros p; apply In_filter_status).
  assert (Ha : filter (hasStatus HAVE) avoid = []).
  { apply filter_other_status with AVOID; [discriminate|].
    intros p. apply In_filter_status. }
  assert (Hl : filter (hasStatus HAVE) like = [])
    by (apply filter_other_status with LIKE; [discriminate|assumption]).
  destruct (1 <? length have).
  - rewrite push_remaining, filter_app.
    rewrite (@filter_other_status LIKE HAVE (skipn _ like))
      by (discriminate || (intros p Hp; eapply Hlike, In_skipn, Hp)).
    rewrite alternate_filter_have by assumption. simpl fst.
    rewrite filter_app, Ha.
    rewrite (@filter_slice_other LIKE HAVE) by (assumption || discriminate).
    now rewrite app_nil_r.
  - simpl. rewrite !filter_app, Ha, Hl. simpl. now apply filter_all.
Qed.

(** The ordered team depends on the three filtered lists only. *)
Lemma sortTeam_ext (t t' : list Person) :
  filter (hasStatus AVOID) t = filter (hasStatus AVOID) t' ->
  filter (hasStatus HAVE) t = filter (hasStatus HAVE) t' ->
  filter (hasStatus LIKE) t = filter (hasStatus LIKE) t' ->
  sortTeam t = sortTeam t'.
Proof. unfold sortTeam. now intros -> -> ->. Qed.

Lemma sortTeam_idem (t : list Person) : sortTeam (sortTeam t) = sortTeam t.
Proof.
  apply sortTeam_ext;
    [apply sortTeam_filter_avoid|apply sortTeam_filter_have|apply sortTeam_filter_like].
Qed.

(** ** HAVE members are kept apart *)





Lemma lastIs_app (s : DogStatus) (a b : list Person) :
  b <> [] -> lastIs s (a ++ b) = lastIs s b.
Proof.
  intros Hb. destruct (exists_last Hb) as (b' & x & ->).
  unfold lastIs. now rewrite app_assoc, !lastMember_snoc.
Qed.







(** ** When the call throws, and what it returns *)

Lemma empty_team_unclassified (people : list Person) (e : Team) :
  In e (teams people) -> snd e = [] ->
  exists p, In p people /\ teamKey p = fst e
    /\ forall q, In q people -> teamKey q = teamKey p -> dogStatus q = None.
Proof.
  intros He Hnil. apply teams_In in He as [Hk E].
  apply in_map_iff in Hk as (p & Kp & Hp). exists p. repeat split; auto.
  intros q Hq Kq. rewrite E in Hnil. rewrite sortTeam_nil_iff in Hnil.
  assert (C : classified q = false).
  { apply Hnil, filter_In. split; [assumption|]. apply String.eqb_eq. congruence. }
  unfold classified in C. destruct (dogStatus q); [discriminate|reflexivity].
Qed.

Lemma firstSeen_constant (k : string) (ks : list string) :
  ks <> [] -> (forall k', In k' ks -> k' = k) -> firstSeen ks = [k].
Proof.
  induction ks as [|k0 ks IH]; intros Hne H; [congruence|].
  assert (k0 = k) by (apply H; now left). subst k0. simpl.
  destruct ks as [|k1 ks]; [reflexivity|].
  rewrite IH; [|discriminate|intros k' Hk'; apply H; now right].
  simpl. now rewrite String.eqb_refl.
Qed.

Lemma finalOrder_singleton (e : string * list Person) :
  existsb (fun c => isCategory c e) allCategories = true ->
  finalOrder [e] = [e].
Proof.
  intros H. assert (P := finalOrder_perm [e]). cbn [filter] in P. rewrite H in P.
  symmetry in P. now apply Permutation_length_1_inv in P.
Qed.

(** X1 (when the call throws).  The call throws a [TypeError] exactly
    when some person's team has no member with a recognised preference; on
    every other input it returns a sequence. *)
Theorem X1_throws_iff (people : list Person) :
  (calculateDeskLayout people = TypeError <->
   exists p, In p people
     /\ forall q, In q people -> teamKey q = teamKey p -> dogStatus q = None)
  /\ (calculateDeskLayout people = TypeError
      \/ exists out, calculateDeskLayout people = Ok out).
Proof.
  split.
  - split.
    + rewrite calculateDeskLayout_spec.
      destruct (existsb isEmptyTeam (teams people)) eqn:E; [|discriminate].
      intros _. apply existsb_exists in E as (e & He & Hnil).
      destruct (@empty_team_unclassified people e) as (p & Hp & _ & H); auto.
      * unfold isEmptyTeam in Hnil. destruct (snd e); [reflexivity|discriminate].
      * exists p. auto.
    + intros (p & Hp & H). now apply unclassified_team_throws with p.
  - rewrite calculateDeskLayout_spec.
    destruct (existsb isEmptyTeam (teams people)); [now left|right; eauto].
Qed.

(** X2 (what the output holds).  Whenever the call returns, its output
    is a permutation of the people of the input that have a recognised
    preference: nobody is added or repeated, and exactly the people without
    one are missing. *)
Theorem X2_output_members (people out : list Person) :
  calculateDeskLayout people = Ok out ->
  Permutation out (filter classified people)
  /\ length out = length (filter classified people)
  /\ (forall p, In p out <-> In p people /\ classified p = true).
Proof.
  intros H. apply calculateDeskLayout_Ok in H as [Hne ->].
  assert (P := layoutOf_perm _ Hne). split; [exact P|]. split.
  - now apply Permutation_length.
  - intros p. rewrite <- filter_In. split; apply Permutation_in; [|symmetry]; exact P.
Qed.

Lemma X2_witness :
  Permutation [alice; kim] (filter classified [grace; kim; alice])
  /\ length [alice; kim] = length (filter classified [grace; kim; alice])
  /\ (forall p, In p [alice; kim] <->
                In p [grace; kim; alice] /\ classified p = true).
Proof. apply (X2_output_members [grace; kim; alice]). reflexivity. Defined.

(** X3 (empty output).  The call returns the empty sequence for the empty
    input and for no other input. *)
Theorem X3_empty_output (people : list Person) :
  calculateDeskLayout people = Ok [] <-> people = [].
Proof.
  split.
  - intros H. apply calculateDeskLayout_Ok in H as [Hne E].
    destruct people as [|p people']; [reflexivity|exfalso].
    rewrite teams_no_empty in Hne.
    destruct (Hne p (or_introl eq_refl)) as (q & Hq & _ & Cq).
    assert (Hin : In q (filter classified (p :: people')))
      by (apply filter_In; now split).
    apply (Permutation_in _ (Permutation_sym (layoutOf_perm (p :: people')
             (proj2 (teams_no_empty _) Hne)))) in Hin.
    rewrite <- E in Hin. destruct Hin.
  - intros ->. reflexivity.
Qed.

(** X4 (the grouper).  The [Map] built by the first loop has one entry per
    team key, in the order in which the keys first occur in the input; the
    entry of a key holds the people with that key in input order, so no
    entry is empty and the entries together hold every person once. *)
Theorem X4_grouper (people : list Person) :
  teamGroups people
  = map (fun k => (k, filter (fun p => String.eqb (teamKey p) k) people))
        (firstSeen (map teamKey people))
  /\ NoDup (map fst (teamGroups people))
  /\ (forall e, In e (teamGroups people) -> snd e <> [])
  /\ Permutation (concat (map snd (teamGroups people))) people.
Proof.
  split; [apply teamGroups_spec|]. split; [|split].
  - rewrite teamGroups_spec. unfold groupsSpec. rewrite map_map. simpl.
    rewrite map_id. apply firstSeen_NoDup.
  - intros e He. rewrite teamGroups_spec in He. unfold groupsSpec in He.
    apply in_map_iff in He as (k & <- & Hk). simpl.
    apply firstSeen_In, in_map_iff in Hk as (p & K & Hp).
    intros E.
    assert (Hin : In p (filter (fun q => String.eqb (teamKey q) k) people))
      by (apply filter_In; split; [assumption|now apply String.eqb_eq]).
    rewrite E in Hin. destruct Hin.
  - apply teamGroups_perm.
Qed.

(** X5 (a single team).  When all the people have the same team key and
    one of them has a recognised preference, the call returns the intra-team
    ordering of the whole input. *)
Theorem X5_single_team (people : list Person) (k : string) :
  (forall p, In p people -> teamKey p = k) ->
  (exists p, In p people /\ classified p = true) ->
  calculateDeskLayout people = Ok (sortTeam people).
Proof.
  intros Hk (p0 & Hp0 & C0). rewrite calculateDeskLayout_spec, teams_spec.
  rewrite (@firstSeen_constant k).
  - simpl map. rewrite filter_all
      by (intros q Hq; apply String.eqb_eq; now apply Hk).
    assert (Hne : sortTeam people <> []).
    { intros E. rewrite sortTeam_nil_iff in E. rewrite (E p0 Hp0) in C0. discriminate. }
    assert (Hcat : existsb (fun c => isCategory c (k, sortTeam people)) allCategories = true).
    { destruct (sortTeam_category _ Hne) as (c & Hc).
      unfold isCategory. simpl snd. rewrite Hc. destruct c; reflexivity. }
    unfold layoutOf. rewrite (@finalOrder_singleton _ Hcat).
    unfold isEmptyTeam. simpl. destruct (sortTeam people); [congruence|].
    now rewrite app_nil_r.
  - destruct people; [destruct Hp0|discriminate].
  - intros k' Hk'. apply in_map_iff in Hk' as (q & <- & Hq). now apply Hk.
Qed.

Lemma X5_witness :
  calculateDeskLayout [alice; grace; charlie; eve]
  = Ok (sortTeam [alice; grace; charlie; eve]).
Proof.
  apply (@X5_single_team [alice; grace; charlie; eve] "a"%string).
  - intros p Hp. simpl in Hp.
    repeat (destruct Hp as [<-|Hp]; [reflexivity|]). destruct Hp.
  - exists alice. split; [now left|reflexivity].
Defined.

(** ** Laying out a layout *)

Lemma firstSeen_block (k : string) (t : list Person) (ks : list string) :
  t <> [] ->
  (forall p, In p t -> teamKey p = k) ->
  ~ In k ks ->
  firstSeen (map teamKey t ++ ks) = k :: firstSeen ks.
Proof.
  intros Hne Hk Hfresh.
  assert (Hrest : filter (fun k' => negb (String.eqb k' k)) (firstSeen ks)
                  = firstSeen ks).
  { apply filter_all. intros k' Hk'. apply negb_true_iff, String.eqb_neq.
    intros E. subst k'. apply Hfresh. now apply (proj1 (firstSeen_In ks k)). }
  induction t as [|p [|p' t] IH]; [congruence| |].
  - simpl. rewrite (Hk p (or_introl eq_refl)). now rewrite Hrest.
  - change (map teamKey (p :: p' :: t) ++ ks)
      with (teamKey p :: (map teamKey (p' :: t) ++ ks)).
    assert (E : firstSeen (map teamKey (p' :: t) ++ ks) = k :: firstSeen ks)
      by (apply IH; [discriminate|intros q Hq; apply Hk; now right]).
    change (firstSeen (teamKey p :: (map teamKey (p' :: t) ++ ks)))
      with (teamKey p :: filter (fun k' => negb (String.eqb k' (teamKey p)))
                           (firstSeen (map teamKey (p' :: t) ++ ks))).
    rewrite E, (Hk p (or_introl eq_refl)). simpl.
    now rewrite String.eqb_refl, Hrest.
Qed.

(** Grouping the concatenation of blocks with distinct keys gives the
    blocks back. *)
Lemma groupsSpec_blocks (blocks : list (string * list Person)) :
  NoDup (map fst blocks) ->
  (forall e, In e blocks -> snd e <> []) ->
  (forall e p, In e blocks -> In p (snd e) -> teamKey p = fst e) ->
  groupsSpec (concat (map snd blocks)) = blocks.
Proof.
  induction blocks as [|[k t] bs IH]; intros Hnd Hne Hkey; [reflexivity|].
  inversion Hnd as [|? ? Hfresh Hnd']; subst. simpl in Hfresh.
  assert (Ht : forall p, In p t -> teamKey p = k)
    by (intros p Hp; apply (Hkey (k, t)); [now left|assumption]).
  assert (Hrest : forall p, In p (concat (map snd bs)) -> In (teamKey p) (map fst bs)).
  { intros p Hp. apply in_concat in Hp as (t' & Ht' & Hp).
    apply in_map_iff in Ht' as (e & <- & He).
    rewrite (Hkey e p); [now apply in_map|now right|assumption]. }
  assert (Hfresh' : ~ In k (map teamKey (concat (map snd bs)))).
  { intros Hin. apply in_map_iff in Hin as (p & <- & Hp). auto. }
  unfold groupsSpec. simpl concat. rewrite map_app.
  rewrite (@firstSeen_block k t); auto; [|apply (Hne (k, t)); now left].
  simpl map. f_equal.
  - f_equal. rewrite filter_app.
    rewrite filter_all by (intros p Hp; apply String.eqb_eq; auto).
    rewrite filter_none; [apply app_nil_r|].
    intros p Hp. apply String.eqb_neq. intros <-. apply Hfresh, Hrest, Hp.
  - rewrite <- IH at 2; auto.
    + unfold groupsSpec. apply map_ext_in. intros k' Hk'. f_equal.
      rewrite filter_app. rewrite filter_none; [reflexivity|].
      intros p Hp. apply String.eqb_neq. intros E. apply Hfresh'.
      apply (proj1 (firstSeen_In _ _)) in Hk'. rewrite <- (Ht p Hp), E. exact Hk'.
    + intros e He. apply Hne. now right.
    + intros e p He. apply Hkey. now right.
Qed.

Section FilterMiddle.

Variables (A : Type) (P : A -> bool).

Lemma middleRounds_nil_nil (beh : list A) : middleRounds beh [] [] = beh.
Proof.
  induction beh as [|b beh IH]; simp middleRounds; [reflexivity|now rewrite IH].
Qed.

Lemma filter_middleRounds (pb po ph : bool) (beh ol hel : list A) :
(forall x, In x beh -> P x = pb) ->
(forall x, In x ol -> P x = po) ->
(forall x, In x hel -> P x = ph) ->
pb && po = false -> pb && ph = false -> po && ph = false ->
filter P (middleRounds beh ol hel)
= (if pb then beh else []) ++ (if po then ol else []) ++ (if ph then hel else []).
Proof.
  intros Hb Ho Hh E1 E2 E3.
  remember (length beh + length ol + length hel) as n eqn:En.
  assert (Hn : length beh + length ol + length hel <= n) by lia. clear En.
  revert beh ol hel Hb Ho Hh Hn.
  induction n as [|n IH]; intros beh ol hel Hb Ho Hh Hn.
  - destruct beh, ol, hel; simpl in Hn; try lia. simp middleRounds.
    now destruct pb, po, ph.
  - destruct beh as [|b beh], ol as [|o ol], hel as [|h hel];
      simp middleRounds; simpl filter;
      repeat match goal with
      | Hx : forall x, In x (?a :: _) -> P x = _ |- context [P ?a] =>
          rewrite (Hx a (or_introl eq_refl))
      end;
      try (rewrite IH;
           [ | intros x Hx; (apply Hb || apply Ho || apply Hh);
               solve [assumption | now right] .. | simpl in *; lia ]);
      destruct pb, po, ph; simpl in *; try discriminate;
      rewrite ?app_nil_r; reflexivity.
Qed.

Lemma filter_uniform (b : bool) (l : list A) :
(forall x, In x l -> P x = b) -> filter P l = if b then l else [].
Proof.
  intros H. destruct b; [now apply filter_all|now apply filter_none].
Qed.

Lemma filter_middleSpec (pb po ph : bool) (beh ol hel : list A) :
  (forall x, In x beh -> P x = pb) ->
  (forall x, In x ol -> P x = po) ->
  (forall x, In x hel -> P x = ph) ->
  pb && po = false -> pb && ph = false -> po && ph = false ->
  filter P (middleSpec beh ol hel)
  = (if pb then beh else []) ++ (if po then ol else []) ++ (if ph then hel else []).
Proof.
  intros Hb Ho Hh E1 E2 E3. unfold middleSpec. destruct beh as [|b beh'].
  - rewrite filter_app.
    rewrite (filter_uniform _ Ho), (filter_uniform _ Hh). now destruct pb.
  - simpl filter. rewrite (Hb b (or_introl eq_refl)).
    rewrite (@filter_middleRounds pb po ph); auto.
    + now destruct pb.
    + intros x Hx. apply Hb. now right.
Qed.

End FilterMiddle.

Lemma isCategory_teamsOf (c c' : Category) (ts : list Team) (e : Team) :
  In e (teamsOf c' ts) -> isCategory c e = Category_eqb c' c.
Proof.
  intros H. apply filter_In in H as [_ H]. unfold isCategory in *.
  destruct (categoryOf (snd e)) as [d|]; [|discriminate].
  apply Category_eqb_eq in H. now subst.
Qed.

Lemma teamsOf_finalOrder (c : Category) (ts : list Team) :
  teamsOf c (finalOrder ts) = teamsOf c ts.
Proof.
  unfold finalOrder. unfold teamsOf at 1. rewrite !filter_app.
  rewrite (@filter_middleSpec _ (isCategory c)
             (Category_eqb BothEndHave c) (Category_eqb OnlyLike c)
             (Category_eqb HaveEndLike c));
    try (intros e He; eapply isCategory_teamsOf, He);
    try (destruct c; reflexivity).
  rewrite (@filter_uniform _ (isCategory c) (Category_eqb OnlyAvoid c))
    by (intros e He; eapply isCategory_teamsOf, He).
  rewrite (@filter_uniform _ (isCategory c) (Category_eqb AvoidEndLike c))
    by (intros e He; eapply isCategory_teamsOf, He).
  rewrite (@filter_uniform _ (isCategory c) (Category_eqb BothEndLike c))
    by (intros e He; eapply isCategory_teamsOf, He).
  rewrite (@filter_uniform _ (isCategory c) (Category_eqb HaveEndHave c))
    by (intros e He; eapply isCategory_teamsOf, He).
  rewrite (@filter_uniform _ (isCategory c) (Category_eqb OnlyHave c))
    by (intros e He; eapply isCategory_teamsOf, He).
  destruct c; simpl; rewrite ?app_nil_r; reflexivity.
Qed.

Lemma finalOrder_idem (ts : list Team) :
  finalOrder (finalOrder ts) = finalOrder ts.
Proof.
  assert (E : forall l, finalOrder l
    = teamsOf OnlyAvoid l ++ teamsOf AvoidEndLike l ++ teamsOf BothEndLike l
      ++ middleSpec (teamsOf BothEndHave l) (teamsOf OnlyLike l) (teamsOf HaveEndLike l)
      ++ teamsOf HaveEndHave l ++ teamsOf OnlyHave l) by reflexivity.
  rewrite (E (finalOrder ts)), !teamsOf_finalOrder. symmetry. apply E.
Qed.

Lemma teams_of_layout (people : list Person) :
  existsb isEmptyTeam (teams people) = false ->
  teams (layoutOf (teams people)) = finalOrder (teams people).
Proof.
  intros Hne. unfold teams at 1. rewrite teamGroups_spec. unfold layoutOf.
  rewrite groupsSpec_blocks.
  - unfold sortTeams. rewrite <- (map_id (finalOrder (teams people))) at 2.
    apply map_ext_in. intros e He. apply finalOrder_incl in He.
    apply teams_In in He as [_ E]. destruct e as [k t]. simpl in *.
    now rewrite E, sortTeam_idem.
  - apply finalOrder_keys_NoDup, teams_keys_NoDup.
  - intros e He. apply finalOrder_incl in He.
    apply isEmptyTeam_false. eapply existsb_false; eassumption.
  - intros e p He Hp. apply finalOrder_incl in He.
    now destruct (teams_members _ _ _ He Hp) as (_ & K & _).
Qed.

(** X6 (laying out a layout).  Whenever the call returns a sequence, the
    call on that sequence returns it unchanged. *)
Theorem X6_idempotent (people out : list Person) :
  calculateDeskLayout people = Ok out ->
  calculateDeskLayout out = Ok out.
Proof.
  intros H. apply calculateDeskLayout_Ok in H as [Hne ->].
  rewrite calculateDeskLayout_spec, (teams_of_layout _ Hne).
  replace (existsb isEmptyTeam (finalOrder (teams people))) with false.
  - unfold layoutOf at 1. now rewrite finalOrder_idem.
  - symmetry. destruct (existsb isEmptyTeam (finalOrder (teams people))) eqn:E;
      [|reflexivity].
    apply existsb_exists in E as (e & He & Hnil). apply finalOrder_incl in He.
    rewrite (existsb_false _ _ _ Hne He) in Hnil. discriminate.
Qed.

Lemma X6_witness :
  calculateDeskLayout [charlie; alice; david; bob; eve; leo; kim]
  = Ok [charlie; alice; david; bob; eve; leo; kim].
Proof.
  apply (X6_idempotent [alice; leo; kim; bob; charlie; david; eve]).
  reflexivity.
Defined.

(** ** The intra-team orderer, as its callers see it *)

(** X7 (the orderer is stable).  The ordered team holds the members with a
    recognised preference, each once, and within each of the three
    preferences the members keep the order they had in the team. *)
Theorem X7_orderer_stable (t : list Person) :
  Permutation (sortTeam t) (filter classified t)
  /\ (forall s, filter (hasStatus s) (sortTeam t) = filter (hasStatus s) t).
Proof.
  split; [apply sortTeam_perm|].
  intros [| |];
    [apply sortTeam_filter_avoid|apply sortTeam_filter_like|apply sortTeam_filter_have].
Qed.

(** X8 (ordering an ordered team).  The orderer changes nothing in a team
    that it has ordered, and two teams with the same AVOID, HAVE and LIKE
    members in the same orders get the same ordering. *)
Theorem X8_orderer_idempotent :
  (forall t, sortTeam (sortTeam t) = sortTeam t)
  /\ (forall t t',
        (forall s, filter (hasStatus s) t = filter (hasStatus s) t') ->
        sortTeam t = sortTeam t').
Proof.
  split; [apply sortTeam_idem|].
  intros t t' H. apply sortTeam_ext; apply H.
Qed.

Lemma X8_witness :
  sortTeam [grace; alice; charlie; david] = sortTeam [alice; charlie; david].
Proof.
  apply (proj2 X8_orderer_idempotent). intros [| |]; reflexivity.
Defined.

(** X9 (AVOID members first, a single HAVE member last).  The ordered team
    starts with the AVOID members of the team in their order, and no AVOID
    member comes later; when the team has exactly one HAVE member, that
    member is the last of the ordered team. *)
Theorem X9_avoid_first_have_last (t : list Person) :
  let avoid := filter (hasStatus AVOID) t in
  firstn (length avoid) (sortTeam t) = avoid
  /\ (forall p, In p (skipn (length avoid) (sortTeam t)) -> hasStatus AVOID p = false)
  /\ (length (filter (hasStatus HAVE) t) = 1 -> lastIs HAVE (sortTeam t) = true).
Proof.
  intros avoid. destruct (sortTeam_shape t) as (rest & E & Hrest & _).
  fold avoid in E. split; [|split].
  - rewrite E, firstn_app, Nat.sub_diag, firstn_all. simpl. apply app_nil_r.
  - intros p Hp. rewrite E, skipn_app, Nat.sub_diag, skipn_all in Hp. simpl in Hp.
    destruct (hasStatus AVOID p) eqn:Ea; [|reflexivity].
    destruct (Hrest p Hp) as [C|C]; discriminate (hasStatus_unique _ _ _ Ea C).
  - intros H1. unfold sortTeam. rewrite H1. simpl.
    destruct (filter (hasStatus HAVE) t) as [|h [|h' l]] eqn:Eh; try discriminate.
    rewrite lastIs_app by discriminate.
    unfold lastIs, lastMember. simpl. apply (@In_filter_status HAVE t).
    rewrite Eh. now left.
Qed.

Lemma X9_witness :
  lastIs HAVE (sortTeam [david; alice; charlie; bob]) = true.
Proof.
  apply (X9_avoid_first_have_last [david; alice; charlie; bob]). reflexivity.
Defined.


(** ** The composer *)

(** X11 (the middle block loses and repeats no team).  With fuel for its
    three buckets, step 4 returns a block without [undefined] elements that
    holds every team of [teamsWithBothEndHave], [teamsOnlyLike] and
    [teamsHaveEndLike] once, each bucket in its own order. *)
Theorem X11_middle_block_complete
    (bothEndHave onlyLike haveEndLike : list Team) (fuel : nat) :
  length bothEndHave + length onlyLike + length haveEndLike <= fuel ->
  exists middle,
    buildTeamsInMiddle bothEndHave onlyLike haveEndLike fuel = Ok (map Some middle)
    /\ Permutation middle (bothEndHave ++ onlyLike ++ haveEndLike)
    /\ length middle = length bothEndHave + length onlyLike + length haveEndLike
    /\ forall (P : Team -> bool) (pb po ph : bool),
         (forall e, In e bothEndHave -> P e = pb) ->
         (forall e, In e onlyLike -> P e = po) ->
         (forall e, In e haveEndLike -> P e = ph) ->
         pb && po = false -> pb && ph = false -> po && ph = false ->
         filter P middle
         = (if pb then bothEndHave else []) ++ (if po then onlyLike else [])
           ++ (if ph then haveEndLike else []).
Proof.
  intros Hfuel. exists (middleSpec bothEndHave onlyLike haveEndLike).
  split; [now apply buildTeamsInMiddle_spec|]. split; [apply middleSpec_perm|].
  split.
  - rewrite (Permutation_length (middleSpec_perm _ _ _)), !length_app. lia.
  - intros P pb po ph. apply filter_middleSpec.
Qed.

Lemma X11_witness :
  exists middle,
    buildTeamsInMiddle [("a"%string, [charlie; david])] [("c"%string, [alice])]
                       [("d"%string, [david; bob])] 3
    = Ok (map Some middle)
    /\ Permutation middle
         ([("a"%string, [charlie; david])] ++ [("c"%string, [alice])]
          ++ [("d"%string, [david; bob])])
    /\ length middle = 3.
Proof.
  destruct (@X11_middle_block_complete
              [("a"%string, [charlie; david])] [("c"%string, [alice])]
              [("d"%string, [david; bob])] 3) as (m & E & P & L & _).
  - simpl. lia.
  - exists m. auto.
Defined.

Lemma groups_of_layout (people : list Person) :
  existsb isEmptyTeam (teams people) = false ->
  groupsSpec (layoutOf (teams people)) = finalOrder (teams people).
Proof.
  intros Hne. unfold layoutOf. apply groupsSpec_blocks.
  - apply finalOrder_keys_NoDup, teams_keys_NoDup.
  - intros e He. apply finalOrder_incl in He.
    apply isEmptyTeam_false. eapply existsb_false; eassumption.
  - intros e p He Hp. apply finalOrder_incl in He.
    now destruct (teams_members _ _ _ He Hp) as (_ & K & _).
Qed.

Lemma layout_team_block (people : list Person) (k : string) :
  existsb isEmptyTeam (teams people) = false ->
  filter (fun p => String.eqb (teamKey p) k) (layoutOf (teams people))
  = sortTeam (filter (fun p => String.eqb (teamKey p) k) people).
Proof.
  intros Hne.
  destruct (in_dec string_dec k (map teamKey people)) as [Hk|Hk].
  - set (e := (k, sortTeam (filter (fun p => String.eqb (teamKey p) k) people))).
    assert (He : In e (teams people))
      by (apply teams_In; unfold e; simpl; now split).
    assert (Hfo : In e (finalOrder (teams people)))
      by (apply (Permutation_in _ (Permutation_sym (finalOrder_all _ Hne))), He).
    rewrite <- (groups_of_layout _ Hne) in Hfo. unfold groupsSpec in Hfo.
    apply in_map_iff in Hfo as (k' & E & _). unfold e in E.
    inversion E; subst k'. reflexivity.
  - rewrite (@filter_none _ _ people).
    + apply filter_none. intros p Hp.
      apply (Permutation_in _ (layoutOf_perm _ Hne)) in Hp.
      apply filter_In in Hp as [Hp _]. apply String.eqb_neq. intros <-.
      apply Hk. now apply in_map.
    + intros p Hp. apply String.eqb_neq. intros <-. apply Hk. now apply in_map.
Qed.

(** X12 (the block of a team).  Whenever the call returns, the members of
    the output with a given team key, read from left to right, are the
    intra-team ordering of the people of the input with that key. *)
Theorem X12_team_blocks (people out : list Person) (k : string) :
  calculateDeskLayout people = Ok out ->
  filter (fun p => String.eqb (teamKey p) k) out
  = sortTeam (filter (fun p => String.eqb (teamKey p) k) people).
Proof.
  intros H. apply calculateDeskLayout_Ok in H as [Hne ->].
  now apply layout_team_block.
Qed.

Lemma X12_witness :
  filter (fun p => String.eqb (teamKey p) "a") [charlie; alice; david; bob; eve; kim]
  = sortTeam (filter (fun p => String.eqb (teamKey p) "a")
                     [alice; kim; bob; charlie; david; eve]).
Proof.
  apply (@X12_team_blocks [alice; kim; bob; charlie; david; eve]). reflexivity.
Defined.

(* ------------------------------------------------------------------ *)
(** * The teams page *)

Lemma idDiffers_spec (i : string) (t : TeamEntry) :
  idDiffers (Some i) t = true <-> entry_id t <> i.
Proof.
  simpl. rewrite negb_true_iff. apply String.eqb_neq.
Qed.

(** X13 (the cache update of [deleteTeam]).  The callback writes nothing
    when the mutation has no result or the query is not cached.  Otherwise it
    writes the cached teams without those of the deleted id, the others in
    their order; running it again on what it wrote changes nothing, and
    without an id in the variables it writes the list unchanged. *)
Theorem X13_delete_update (D : Type) (teams0 : list TeamEntry) (d : D) (i : string) :
  deleteTeamUpdate (@None (list TeamEntry)) (Some d) (Some i) = None
  /\ deleteTeamUpdate (Some teams0) (@None D) (Some i) = None
  /\ deleteTeamUpdate (Some teams0) (Some d) None = Some teams0
  /\ exists written,
       deleteTeamUpdate (Some teams0) (Some d) (Some i) = Some written
       /\ (forall t, In t written <-> In t teams0 /\ entry_id t <> i)
       /\ written = filter (fun t => negb (String.eqb (entry_id t) i)) teams0
       /\ length written <= length teams0
       /\ deleteTeamUpdate (Some written) (Some d) (Some i) = Some written.
Proof.
  split; [reflexivity|]. split; [reflexivity|]. split.
  - simpl. f_equal. now apply filter_all.
  - eexists. split; [reflexivity|]. split; [|split; [|split]].
    + intros t. rewrite filter_In, idDiffers_spec. tauto.
    + reflexivity.
    + apply filter_length_le.
    + simpl. f_equal. rewrite filter_filter. apply filter_ext.
      intros t. apply andb_diag.
Qed.

Lemma map_replace_absent (put : TeamEntry) (l : list TeamEntry) :
  (forall t, In t l -> entry_id t <> entry_id put) ->
  map (fun t => if String.eqb (entry_id t) (entry_id put) then put else t) l = l.
Proof.
  intros H. rewrite <- (map_id l) at 2. apply map_ext_in. intros t Ht.
  destruct (String.eqb_spec (entry_id t) (entry_id put)); [|reflexivity].
  now destruct (H t Ht).
Qed.

(** X14 (the cache update of [putTeam] for an edit).  With a truthy id in
    the variables the callback writes a list of the same length with the same
    ids at the same places: every cached team with the id of the returned
    team is replaced by it, every other team stays; so when no cached team
    has that id, the returned team is not added and the list is written
    unchanged. *)
Theorem X14_put_update_edit (teams0 : list TeamEntry) (put : TeamEntry) (i : string) :
  i <> ""%string ->
  exists written,
    putTeamUpdate (Some teams0) (Some put) (Some i) = Some written
    /\ length written = length teams0
    /\ map entry_id written = map entry_id teams0
    /\ (forall n t, nth_error teams0 n = Some t ->
          nth_error written n
          = Some (if String.eqb (entry_id t) (entry_id put) then put else t))
    /\ ((forall t, In t teams0 -> entry_id t <> entry_id put) -> written = teams0).
Proof.
  intros Hi. unfold putTeamUpdate, truthyId.
  apply String.eqb_neq in Hi. rewrite Hi. simpl.
  eexists. split; [reflexivity|]. split; [apply length_map|]. split; [|split].
  - rewrite map_map. apply map_ext. intros t.
    destruct (String.eqb_spec (entry_id t) (entry_id put)); congruence.
  - intros n t E. now rewrite nth_error_map, E.
  - apply map_replace_absent.
Qed.

Lemma X14_witness :
  exists written,
    putTeamUpdate (Some [entryA; entryB]) (Some (mkTeamEntry "b" "Bees" []))
                  (Some "b"%string) = Some written
    /\ length written = 2.
Proof.
  destruct (@X14_put_update_edit [entryA; entryB] (mkTeamEntry "b" "Bees" []) "b"%string)
    as (w & E & L & _).
  - discriminate.
  - exists w. auto.
Defined.

(** X15 (adding, then deleting).  Without an id in the variables, or with
    the empty string as id, the callback of [putTeam] appends the returned
    team to the cached list; when no cached team has the id of the returned
    team, the callback of [deleteTeam] for that id then writes the list as it
    was before. *)
Theorem X15_add_then_delete (D : Type) (teams0 : list TeamEntry) (put : TeamEntry) (d : D) :
  putTeamUpdate (Some teams0) (Some put) None = Some (teams0 ++ [put])
  /\ putTeamUpdate (Some teams0) (Some put) (Some ""%string) = Some (teams0 ++ [put])
  /\ ((forall t, In t teams0 -> entry_id t <> entry_id put) ->
      deleteTeamUpdate (putTeamUpdate (Some teams0) (Some put) None) (Some d)
                       (Some (entry_id put))
      = Some teams0).
Proof.
  split; [reflexivity|]. split; [reflexivity|]. intros Hfresh. simpl.
  rewrite filter_app. simpl. rewrite String.eqb_refl. simpl.
  rewrite app_nil_r. f_equal. apply filter_all. intros t Ht.
  apply negb_true_iff, String.eqb_neq. now apply Hfresh.
Qed.

Lemma X15_witness :
  deleteTeamUpdate (putTeamUpdate (Some [entryA; entryB]) (Some entryC) None)
                   (Some tt) (Some (entry_id entryC))
  = Some [entryA; entryB].
Proof.
  apply (X15_add_then_delete [entryA; entryB] entryC tt).
  intros t [<-|[<-|[]]]; discriminate.
Defined.



